(** * Calculation graphs over time series: frequency policies and the
      traversal engine

    A shallow embedding of [frequencies.py], [inputs.py], [nodes.py] and
    [graphs.py], one module per source file, followed by the properties
    established about them.

    Conventions of the embedding.
    - An exception is a value: every function that may raise returns a
      [result], and [Raise] carries the exception class together with a
      structured rendering of its message.
    - Python objects compared by identity (the calculation nodes, which are
      the keys of the networkx graph) are natural numbers; an environment
      [obj] maps a node to the calculation object it stands for.
    - The pandas and networkx libraries are not part of the repository.
      networkx's [DiGraph] is modelled by its insertion-ordered adjacency;
      pandas series are modelled over the default positional index, with
      float64 values (an integer column is the column of the floats of the
      same values). *)

From Stdlib Require Import String List ZArith Bool Lia Permutation.
From Stdlib Require Import Floats.PrimFloat.
From Stdlib Require Import Sorting.Sorted.
Import ListNotations.

Set Implicit Arguments.

(** ** Exceptions *)

Module exceptions.

(** The messages of the exceptions the four files raise, and of those raised
    on their behalf by Python and pandas. A message formatted from a node
    or from a collection holds that node or collection: [ProblemOccured]
    holds the node whose [__str__] the text shows, and the message of the
    exception it replaces. *)
Inductive message : Type :=
| AcceptsExactly (n : Z)                    (* frequencies.py:54 *)
| NeedsIdentical (got : list string)        (* frequencies.py:89 *)
| CanOnlyAggregate                          (* frequencies.py:124 *)
| NumberOfInputsExpected (n : Z)            (* inputs.py:19 *)
| InputIsNotOfType (expected : string)      (* inputs.py:29 *)
| ExactlyOneOutput (got : list nat)         (* graphs.py:75 *)
| ProblemOccured (node : nat) (err : message) (* graphs.py:108 *)
| CouldntReach                              (* graphs.py:122 *)
| Builtin (what : string).                  (* raised by Python or pandas *)

Inductive exception : Type :=
| ValueError (m : message)
| TypeError (m : message)
| KeyError (m : message)
| IndexError (m : message)
| AttributeError (m : message)
| UnboundLocalError (m : message).

Inductive result (A : Type) : Type :=
| Ok (a : A)
| Raise (e : exception).

Arguments Ok {A} a.
Arguments Raise {A} e.

Definition bind {A B : Type} (r : result A) (k : A -> result B) : result B :=
  match r with
  | Ok a => k a
  | Raise e => Raise e
  end.

End exceptions.

Export exceptions.

Notation "x <- r ;; k" := (bind r (fun x => k))
  (at level 61, r at next level, right associativity).
Notation "r ;;; k" := (bind r (fun _ => k))
  (at level 61, right associativity).

(** ** frequencies.py *)

Module frequencies.

(** [class FreqStr(str, Enum)]: the four members. *)
Inductive FreqStr : Type := D | M | Q | A.

Definition value (f : FreqStr) : string :=
  match f with D => "D" | M => "M" | Q => "Q" | A => "A" end%string.

Definition numbervalue (f : FreqStr) : Z :=
  match f with D => 1 | M => 2 | Q => 3 | A => 4 end%Z.

Definition ge (x y : FreqStr) : bool := (numbervalue x >=? numbervalue y)%Z.
Definition gt (x y : FreqStr) : bool := (numbervalue x >? numbervalue y)%Z.
Definition le (x y : FreqStr) : bool := (numbervalue x <=? numbervalue y)%Z.
Definition lt (x y : FreqStr) : bool := (numbervalue x <? numbervalue y)%Z.

Definition FreqStr_eq_dec (x y : FreqStr) : {x = y} + {x <> y}.
Proof. decide equality. Defined.

(** Python's [max] and [min] over a list: the running extremum is replaced
    only by a strictly greater (smaller) item, compared with [__gt__]
    ([__lt__]); on the empty list they raise [ValueError]. *)
Fixpoint max_from (cur : FreqStr) (l : list FreqStr) : FreqStr :=
  match l with
  | [] => cur
  | x :: r => max_from (if gt x cur then x else cur) r
  end.

Fixpoint min_from (cur : FreqStr) (l : list FreqStr) : FreqStr :=
  match l with
  | [] => cur
  | x :: r => min_from (if lt x cur then x else cur) r
  end.

Definition py_max (l : list FreqStr) : result FreqStr :=
  match l with
  | [] => Raise (ValueError (Builtin "max() arg is an empty sequence"))
  | x :: r => Ok (max_from x r)
  end.

Definition py_min (l : list FreqStr) : result FreqStr :=
  match l with
  | [] => Raise (ValueError (Builtin "min() arg is an empty sequence"))
  | x :: r => Ok (min_from x r)
  end.

(** [len(set(input_freqs))]: the number of distinct members. *)
Definition len_set (l : list FreqStr) : nat :=
  length (nodup FreqStr_eq_dec l).

(** The handler classes; the constructor arguments are the instance
    attributes set by [__init__]. *)
Inductive FrequencyHandler : Type :=
| PassthroughFrequency
| IdenticalFrequencies (n : option Z)
| CoarsestFrequency
| FinestFrequency
| DownsampleFrequency (target_freq : FreqStr).

Definition INPUTS_N (h : FrequencyHandler) : option Z :=
  match h with
  | PassthroughFrequency => Some 1%Z
  | IdenticalFrequencies n => n
  | CoarsestFrequency => None
  | FinestFrequency => None
  | DownsampleFrequency _ => Some 1%Z
  end.

(** [FrequencyHandler.output_frequency], the body the subclasses reach
    through [super()]: the arity check. The [isinstance(input_freqs, str)]
    branch never runs, [input_freqs] being the tuple of the arguments. *)
Definition super_output_frequency (h : FrequencyHandler)
    (input_freqs : list FreqStr) : result unit :=
  match INPUTS_N h with
  | Some n =>
      if negb (Z.of_nat (length input_freqs) =? n)%Z
      then Raise (TypeError (AcceptsExactly n))
      else Ok tt
  | None => Ok tt
  end.

(** [FreqStr(x)] on a member of the enumeration is that member. *)
Definition FreqStr_call (f : FreqStr) : FreqStr := f.

(** [output_frequency] of each handler, applied to the tuple of its
    positional arguments. [PassthroughFrequency] and [DownsampleFrequency]
    declare exactly one parameter: with any other number of arguments the
    call itself raises [TypeError]. *)
Definition output_frequency (h : FrequencyHandler)
    (input_freqs : list FreqStr) : result FreqStr :=
  match h with
  | PassthroughFrequency =>
      match input_freqs with
      | [input_freq] =>
          super_output_frequency h [input_freq] ;;;
          Ok (FreqStr_call input_freq)
      | _ => Raise (TypeError (Builtin "output_frequency() positional arguments"))
      end
  | IdenticalFrequencies _ =>
      super_output_frequency h input_freqs ;;;
      if (1 <? len_set input_freqs)%nat
      then Raise (ValueError (NeedsIdentical (map value input_freqs)))
      else match input_freqs with
           | [] => Raise (IndexError (Builtin "tuple index out of range"))
           | f0 :: _ => Ok (FreqStr_call f0)
           end
  | CoarsestFrequency =>
      super_output_frequency h input_freqs ;;;
      py_max (map FreqStr_call input_freqs)
  | FinestFrequency =>
      super_output_frequency h input_freqs ;;;
      py_min (map FreqStr_call input_freqs)
  | DownsampleFrequency target_freq =>
      match input_freqs with
      | [input_freq] =>
          super_output_frequency h [input_freq] ;;;
          if gt (FreqStr_call input_freq) target_freq
          then Raise (ValueError CanOnlyAggregate)
          else Ok target_freq
      | _ => Raise (TypeError (Builtin "output_frequency() positional arguments"))
      end
  end.

End frequencies.

(** ** The pandas objects the nodes exchange *)

Module pandas.

(** A series: its [name] attribute and its float64 values, over the default
    positional index [0 .. n-1]. A table: its named columns over that index. *)
Record Series : Type := { name : option string; values : list float }.

Record DataFrame : Type := { columns : list (string * list float) }.

Inductive object : Type :=
| PSeries (s : Series)
| PFrame (d : DataFrame).

Inductive pytype : Type := type_Series | type_DataFrame | type_type.

Definition type_name (t : pytype) : string :=
  match t with
  | type_Series => "Series"
  | type_DataFrame => "DataFrame"
  | type_type => "type"
  end%string.

(** [isinstance(x, t)]: no series or table is an instance of [type]. *)
Definition isinstance (x : object) (t : pytype) : bool :=
  match x, t with
  | PSeries _, type_Series => true
  | PFrame _, type_DataFrame => true
  | _, _ => false
  end.

Inductive arith : Type := op_add | op_sub | op_mul.

Definition apply_arith (op : arith) (x y : float) : float :=
  match op with
  | op_add => PrimFloat.add x y
  | op_sub => PrimFloat.sub x y
  | op_mul => PrimFloat.mul x y
  end.

(** What the nodes use of pandas without this development modelling it:
    resampling, and arithmetic between a table and a series or table. *)
Record kernel : Type := {
  resample : frequencies.FreqStr -> string -> object -> result object;
  frame_arith : arith -> object -> object -> result object
}.

(** [dataframe[name]] *)
Fixpoint getitem (cols : list (string * list float)) (key : string)
    : result Series :=
  match cols with
  | [] => Raise (KeyError (Builtin key))
  | (c, vs) :: rest =>
      if String.eqb c key then Ok {| name := Some c; values := vs |}
      else getitem rest key
  end.

(** [dataframe[list(names)]] *)
Fixpoint getitems (cols : list (string * list float)) (keys : list string)
    : result (list (string * list float)) :=
  match keys with
  | [] => Ok []
  | k :: ks =>
      s <- getitem cols k ;;
      rest <- getitems cols ks ;;
      Ok ((k, values s) :: rest)
  end.

(** [frame.iloc[:, 0]] *)
Definition iloc_first_column (cols : list (string * list float))
    : result Series :=
  match cols with
  | [] => Raise (IndexError (Builtin "single positional indexer is out-of-bounds"))
  | (c, vs) :: _ => Ok {| name := Some c; values := vs |}
  end.

(** Two series over positional indexes are aligned on the union of the
    indexes, that is the longer one; a position missing on one side is NaN. *)
Fixpoint align (f : float -> float -> float) (xs ys : list float)
    : list float :=
  match xs, ys with
  | [], [] => []
  | x :: xs', [] => f x nan :: align f xs' []
  | [], y :: ys' => f nan y :: map (fun y' => f nan y') ys'
  | x :: xs', y :: ys' => f x y :: align f xs' ys'
  end.

Definition name_eqb (a b : option string) : bool :=
  match a, b with
  | Some x, Some y => String.eqb x y
  | None, None => true
  | _, _ => false
  end.

(** The result of a binary operation keeps the operands' name when they
    carry the same one, and has none otherwise. *)
Definition series_arith (op : arith) (x y : Series) : Series :=
  {| name := if name_eqb (name x) (name y) then name x else None;
     values := align (apply_arith op) (values x) (values y) |}.

Definition series_scalar (op : arith) (x : Series) (c : float) : Series :=
  {| name := name x;
     values := map (fun v => apply_arith op v c) (values x) |}.

Definition frame_scalar (op : arith) (d : DataFrame) (c : float) : DataFrame :=
  {| columns :=
       map (fun col => (fst col, map (fun v => apply_arith op v c) (snd col)))
           (columns d) |}.

(** [x op y] on two pandas objects. *)
Definition binary (pd : kernel) (op : arith) (x y : object) : result object :=
  match x, y with
  | PSeries a, PSeries b => Ok (PSeries (series_arith op a b))
  | _, _ => frame_arith pd op x y
  end.

(** [x op c] with a float [c]. *)
Definition scalar (op : arith) (x : object) (c : float) : object :=
  match x with
  | PSeries a => PSeries (series_scalar op a c)
  | PFrame d => PFrame (frame_scalar op d c)
  end.

End pandas.

(** ** inputs.py *)

Module inputs.

Import pandas.

(** The class attributes of a [CalcInput] subclass. *)
Record CalcInput : Type := {
  INPUT_N : option Z;
  INPUT_TYPES : list pytype
}.

Definition SingleInput : CalcInput :=
  {| INPUT_N := Some 1%Z; INPUT_TYPES := [type_type] |}.
Definition SingleSeriesInput : CalcInput :=
  {| INPUT_N := Some 1%Z; INPUT_TYPES := [type_Series] |}.
Definition SingleDataFrameInput : CalcInput :=
  {| INPUT_N := Some 1%Z; INPUT_TYPES := [type_DataFrame] |}.
Definition NSeriesInput (n : Z) : CalcInput :=
  {| INPUT_N := Some n; INPUT_TYPES := [type_Series] |}.
Definition MultipleSeriesInputs : CalcInput :=
  {| INPUT_N := None; INPUT_TYPES := [type_Series] |}.

Definition check_input_number (self : CalcInput) (inputs_list : list object)
    : result unit :=
  match INPUT_N self with
  | Some n =>
      if negb (Z.of_nat (length inputs_list) =? n)%Z
      then Raise (ValueError (NumberOfInputsExpected n))
      else Ok tt
  | None => Ok tt
  end.

(** The loop over [zip(inputs, types)]. *)
Fixpoint check_zip (inputs : list object) (types : list pytype)
    : result unit :=
  match inputs, types with
  | input :: inputs', expected_type :: types' =>
      if negb (isinstance input expected_type)
      then Raise (TypeError (InputIsNotOfType (type_name expected_type)))
      else check_zip inputs' types'
  | _, _ => Ok tt
  end.

Definition check_input_types (self : CalcInput) (inputs : list object)
    : result unit :=
  let types :=
    if (length (INPUT_TYPES self) =? 1)%nat
    then flat_map (fun _ => INPUT_TYPES self) inputs   (* INPUT_TYPES * len(inputs) *)
    else INPUT_TYPES self in
  check_zip inputs types.

(** [check_inputs]: its argument tuple [inputs] is always a tuple. *)
Definition check_inputs (self : CalcInput) (inputs : list object)
    : result unit :=
  check_input_number self inputs ;;;
  check_input_types self inputs.

End inputs.

(** ** nodes.py *)

Module nodes.

Import pandas.

(** The concrete calculation classes with the attributes [__init__] sets. *)
Inductive Calculation : Type :=
| Filter (names : list string) (collapse : bool)
| Output (ts_name : string)
| Input (ts_name : string)
| Add (const_float : float)
| Subtract (const_float : float)
| Multiply (const_float : float)
| Aggregate (frequency : frequencies.FreqStr) (aggregation : string).

Definition check_input_order (self : Calculation) : bool :=
  match self with
  | Subtract _ => true
  | _ => false
  end.

(** No class overrides the default [check_output_order = False]. *)
Definition check_output_order (self : Calculation) : bool := false.

Definition frequency_handler (self : Calculation)
    : frequencies.FrequencyHandler :=
  match self with
  | Filter _ _ => frequencies.PassthroughFrequency
  | Output _ => frequencies.PassthroughFrequency
  | Input _ => frequencies.PassthroughFrequency
  | Add _ => frequencies.IdenticalFrequencies None
  | Subtract _ => frequencies.IdenticalFrequencies (Some 2%Z)
  | Multiply _ => frequencies.IdenticalFrequencies None
  | Aggregate frequency _ => frequencies.DownsampleFrequency frequency
  end.

Definition inputs_handler (self : Calculation) : inputs.CalcInput :=
  match self with
  | Filter _ _ => inputs.SingleDataFrameInput
  | Output _ => inputs.SingleSeriesInput
  | Input _ => inputs.SingleDataFrameInput
  | Add _ => inputs.MultipleSeriesInputs
  | Subtract _ => inputs.NSeriesInput 2
  | Multiply _ => inputs.MultipleSeriesInputs
  | Aggregate _ _ => inputs.SingleInput
  end.

Definition check_inputs (self : Calculation) (args : list object)
    : result unit :=
  inputs.check_inputs (inputs_handler self) args.

(** The property [output_frequency]: the handler's method. *)
Definition output_frequency (self : Calculation)
    (input_freqs : list frequencies.FreqStr) : result frequencies.FreqStr :=
  frequencies.output_frequency (frequency_handler self) input_freqs.

(** The attribute [ts_name], which only [Input] and [Output] objects have. *)
Definition ts_name_of (self : Calculation) : result string :=
  match self with
  | Output n => Ok n
  | Input n => Ok n
  | _ => Raise (AttributeError (Builtin "ts_name"))
  end.

(** [reduce(lambda x, y: x op y, ts_n)] *)
Fixpoint reduce_from (pd : kernel) (op : arith) (acc : object)
    (ts_n : list object) : result object :=
  match ts_n with
  | [] => Ok acc
  | y :: rest => acc' <- binary pd op acc y ;; reduce_from pd op acc' rest
  end.

Definition reduce (pd : kernel) (op : arith) (ts_n : list object)
    : result object :=
  match ts_n with
  | [] => Raise (TypeError
            (Builtin "reduce() of empty iterable with no initial value"))
  | x :: rest => reduce_from pd op x rest
  end.

Definition wrong_arguments {T : Type} : result T :=
  Raise (TypeError (Builtin "compute() positional arguments")).

(** [compute] of each class, applied to the tuple of its positional
    arguments. The methods of [Filter], [Output], [Input] and [Aggregate]
    declare one parameter, so that a call with another number of arguments
    raises [TypeError] before the body runs. [copy()] is the identity on
    values. The write to [_result_cache], which nothing reads back, is left
    out. *)
Definition compute (pd : kernel) (self : Calculation) (args : list object)
    : result object :=
  match self with
  | Filter names collapse =>
      match args with
      | [dataframe] =>
          check_inputs self [dataframe] ;;;
          match dataframe with
          | PFrame d =>
              filtered_data <- getitems (columns d) names ;;
              if ((length filtered_data =? 1)%nat && collapse)%bool
              then s <- iloc_first_column filtered_data ;; Ok (PSeries s)
              else Ok (PFrame {| columns := filtered_data |})
          | PSeries _ => Raise (TypeError (InputIsNotOfType "DataFrame"))
          end
      | _ => wrong_arguments
      end
  | Output ts_name =>
      match args with
      | [time_series] =>
          check_inputs self [time_series] ;;;
          match time_series with
          | PSeries s =>
              Ok (PSeries {| name := Some ts_name; values := values s |})
          | PFrame _ => Raise (TypeError (InputIsNotOfType "Series"))
          end
      | _ => wrong_arguments
      end
  | Input ts_name =>
      match args with
      | [dataframe] =>
          check_inputs self [dataframe] ;;;
          match dataframe with
          | PFrame d => input_ts <- getitem (columns d) ts_name ;;
                        Ok (PSeries input_ts)
          | PSeries _ => Raise (TypeError (InputIsNotOfType "DataFrame"))
          end
      | _ => wrong_arguments
      end
  | Add const_float =>
      total <- reduce pd op_add args ;;
      Ok (scalar op_add total const_float)
  | Subtract const_float =>
      check_inputs self args ;;;
      match args with
      | [ts_1; ts_2] =>
          difference <- binary pd op_sub ts_1 ts_2 ;;
          Ok (scalar op_sub difference const_float)
      | _ => Raise (ValueError (Builtin "unpack"))
      end
  | Multiply const_float =>
      check_inputs self args ;;;
      product <- reduce pd op_mul args ;;
      Ok (scalar op_mul product const_float)
  | Aggregate frequency aggregation =>
      match args with
      | [data] => resample pd frequency aggregation data
      | _ => wrong_arguments
      end
  end.

End nodes.

(** ** graphs.py *)

Module graphs.

Import pandas nodes.

(** *** The networkx graph underneath

    The attribute dictionary of an edge as the edge list gives it: the
    positions [input_idx] and [output_idx], each optional. *)
Record attrs : Type := { input_idx : option Z; output_idx : option Z }.

Definition no_attrs : attrs := {| input_idx := None; output_idx := None |}.

(** [datadict.update(dd)] *)
Definition update_attrs (datadict dd : attrs) : attrs :=
  {| input_idx := match input_idx dd with
                  | Some i => Some i
                  | None => input_idx datadict
                  end;
     output_idx := match output_idx dd with
                   | Some i => Some i
                   | None => output_idx datadict
                   end |}.

Definition edge : Type := (nat * nat * attrs)%type.

(** A [DiGraph]: the nodes in insertion order and the edges in the order of
    their first insertion. The adjacency dictionaries [pred[v]] and
    [succ[u]] list the edges into [v] and out of [u] in that order. *)
Record DiGraph : Type := { nodes : list nat; edges : list edge }.

Definition empty : DiGraph := {| nodes := []; edges := [] |}.

Definition add_node (g : DiGraph) (n : nat) : DiGraph :=
  if existsb (Nat.eqb n) (nodes g) then g
  else {| nodes := nodes g ++ [n]; edges := edges g |}.

Fixpoint set_edge (es : list edge) (u v : nat) (dd : attrs) : list edge :=
  match es with
  | [] => [(u, v, dd)]
  | (u', v', datadict) :: rest =>
      if ((u' =? u) && (v' =? v))%nat%bool
      then (u', v', update_attrs datadict dd) :: rest
      else (u', v', datadict) :: set_edge rest u v dd
  end.

Definition add_edge (g : DiGraph) (e : edge) : DiGraph :=
  let '(u, v, dd) := e in
  let g' := add_node (add_node g u) v in
  {| nodes := nodes g'; edges := set_edge (edges g') u v dd |}.

Definition add_edges_from (g : DiGraph) (ebunch : list edge) : DiGraph :=
  fold_left add_edge ebunch g.

(** [self.pred[node].items()] and [self.succ[node].items()] *)
Definition pred (g : DiGraph) (node : nat) : list (nat * attrs) :=
  flat_map (fun e : edge => let '(u, v, dd) := e in
                            if (v =? node)%nat then [(u, dd)] else [])
           (edges g).

Definition succ (g : DiGraph) (node : nat) : list (nat * attrs) :=
  flat_map (fun e : edge => let '(u, v, dd) := e in
                            if (u =? node)%nat then [(v, dd)] else [])
           (edges g).

Definition predecessors (g : DiGraph) (node : nat) : list nat :=
  map fst (pred g node).

Definition successors (g : DiGraph) (node : nat) : list nat :=
  map fst (succ g node).

(** [sorted(items, key=lambda node_info: node_info[1])]: a stable sort. *)
Fixpoint insert_sorted (x : nat * Z) (l : list (nat * Z)) : list (nat * Z) :=
  match l with
  | [] => [x]
  | y :: r => if (snd x <=? snd y)%Z then x :: y :: r
              else y :: insert_sorted x r
  end.

Definition sorted (items : list (nat * Z)) : list (nat * Z) :=
  fold_right insert_sorted [] items.

(** The dictionary comprehension [{node: args[key] for node, args in ...}],
    which raises [KeyError] at the first edge without the key. *)
Fixpoint index_items (key : string) (get : attrs -> option Z)
    (items : list (nat * attrs)) : result (list (nat * Z)) :=
  match items with
  | [] => Ok []
  | (node, args) :: rest =>
      match get args with
      | None => Raise (KeyError (Builtin key))
      | Some i => r <- index_items key get rest ;; Ok ((node, i) :: r)
      end
  end.

(** What a Python variable holds that is either one value or a list of
    values: the variable [calculation_results] of [_traverse_graph], which is
    also what the passes return. *)
Inductive pyvalue (V : Type) : Type :=
| Single (v : V)
| PyList (l : list V).

Arguments Single {V} v.
Arguments PyList {V} l.

(** *** CompositeCalculation *)

(** The graph object: the calculation object each node stands for, and the
    graph built by [__init__] from the edge list. *)
Record CompositeCalculation : Type := {
  obj : nat -> Calculation;
  G : DiGraph
}.

Definition init (objects : nat -> Calculation) (edges : list edge)
    : CompositeCalculation :=
  {| obj := objects; G := add_edges_from empty edges |}.

Section Methods.

(** [list(s)] for a set [s] of nodes: the enumeration order of a set of
    identity-hashed objects is the runtime's. The argument is the list of
    the elements in the order they were added. *)
Variable set_list : list nat -> list nat.

Variable self : CompositeCalculation.

Definition get_sorted_node_predecessors (node : nat) : result (list nat) :=
  if check_input_order (obj self node)
  then inputs <- index_items "input_idx" input_idx (pred (G self) node) ;;
       Ok (map fst (sorted inputs))
  else Ok (predecessors (G self) node).

Definition get_sorted_node_successors (node : nat) : result (list nat) :=
  if check_output_order (obj self node)
  then successors <- index_items "output_idx" output_idx (succ (G self) node) ;;
       Ok (map fst (sorted successors))
  else Ok (successors (G self) node).

Definition input_nodes : list nat :=
  filter (fun node => (length (pred (G self) node) =? 0)%nat) (nodes (G self)).

Definition output_node : result nat :=
  let nodes_without_successors :=
    filter (fun node => (length (succ (G self) node) =? 0)%nat)
           (nodes (G self)) in
  match nodes_without_successors with
  | [node] => Ok node
  | _ => Raise (ValueError (ExactlyOneOutput nodes_without_successors))
  end.

(** *** One pass, for either method

    [V] is the type of the values of the pass and [method] is
    [getattr(node, method_name)]. The value an edge holds under the key
    [method_name] is [None] or a value of [V]; a pair of nodes that is not
    an edge holds nothing and is never read. *)
Section Pass.

Variable V : Type.
Variable method : Calculation -> list V -> result V.

Definition payload : Type := nat -> nat -> option V.

Definition set_payload (pl : payload) (u v : nat) (value : V) : payload :=
  fun u' v' => if ((u' =? u) && (v' =? v))%nat%bool then Some value
               else pl u' v'.

Definition _get_predecessor_edge_information (pl : payload) (node : nat)
    : result (list (option V)) :=
  predecessor_nodes <- get_sorted_node_predecessors node ;;
  Ok (map (fun predecessor => pl predecessor node) predecessor_nodes).

(** The loop over [zip(successors, values)]. *)
Definition _update_successor_edge_information (pl : payload) (node : nat)
    (values : list V) : result payload :=
  successors <- get_sorted_node_successors node ;;
  Ok (fold_left (fun pl' sv => set_payload pl' node (fst sv) (snd sv))
                (combine successors values) pl).

Definition is_not_None (x : option V) : bool :=
  match x with Some _ => true | None => false end.

(** The loop of [_unvisited_nodes_with_all_inputs], collecting the nodes in
    the order they are added to the set. *)
Fixpoint collect_unvisited (pl : payload) (node_list : list nat)
    : result (list nat) :=
  match node_list with
  | [] => Ok []
  | node :: rest =>
      final <- output_node ;;
      let is_final_node := (node =? final)%nat in
      let node_visited :=
        forallb (fun succ => is_not_None (pl node succ))
                (successors (G self) node) in
      let node_inputs_ready :=
        forallb (fun pred => is_not_None (pl pred node))
                (predecessors (G self) node) in
      others <- collect_unvisited pl rest ;;
      if (node_inputs_ready && (negb node_visited || is_final_node))%bool
      then Ok (node :: others)
      else Ok others
  end.

Definition _unvisited_nodes_with_all_inputs (pl : payload)
    : result (list nat) :=
  nodes_with_all_inputs <- collect_unvisited pl (nodes (G self)) ;;
  Ok (set_list nodes_with_all_inputs).

Definition _clear_edge_info (pl : payload) : payload :=
  fun _ _ => None.

(** The arguments of a call. Every predecessor edge of a node of the
    frontier holds a value and an update only adds values, so that the
    [None] case does not occur in a pass (lemmas [frontier_inputs_ready] and
    [set_payload_keeps] below). *)
Fixpoint arguments (inputs : list (option V)) : result (list V) :=
  match inputs with
  | [] => Ok []
  | Some v :: rest => r <- arguments rest ;; Ok (v :: r)
  | None :: _ => Raise (TypeError (Builtin "NoneType"))
  end.

(** The [try] statement: a [ValueError] of the node's method is replaced by
    a [ValueError] naming the node; any other exception passes through. *)
Definition try_method (node : nat) (inputs : list V) : result V :=
  match method (obj self node) inputs with
  | Ok calculation_results => Ok calculation_results
  | Raise (ValueError err) => Raise (ValueError (ProblemOccured node err))
  | Raise e => Raise e
  end.

(** [if not isinstance(calculation_results, list): calculation_results =
    [calculation_results]] *)
Definition as_list (calculation_results : pyvalue V) : pyvalue V :=
  match calculation_results with
  | PyList l => PyList l
  | Single v => PyList [v]
  end.

(** The items [zip] draws from [values]. *)
Definition items (values : pyvalue V) : list V :=
  match values with
  | PyList l => l
  | Single v => [v]
  end.

(** The variables of [_traverse_graph] that the loops update;
    [calculation_results] is unbound until a node has been evaluated. *)
Record locals : Type := {
  edge_info : payload;
  calculation_results : option (pyvalue V);
  final_node_reached : bool
}.

(** The [for] loop over the computable nodes; [break] leaves it at the
    final node. A method returns one value, never a list. *)
Fixpoint for_nodes (final_node : nat) (computable_nodes : list nat)
    (st : locals) : result locals :=
  match computable_nodes with
  | [] => Ok st
  | node :: rest =>
      inputs <- _get_predecessor_edge_information (edge_info st) node ;;
      args <- arguments inputs ;;
      r <- try_method node args ;;
      let results := as_list (Single r) in
      if negb (node =? final_node)%nat
      then pl <- _update_successor_edge_information (edge_info st) node
                   (items results) ;;
           for_nodes final_node rest
             {| edge_info := pl;
                calculation_results := Some results;
                final_node_reached := final_node_reached st |}
      else Ok {| edge_info := edge_info st;
                 calculation_results := Some results;
                 final_node_reached := true |}
  end.

(** The [while] loop. It is left when no node is computable or no iteration
    is left, and by an exception; reaching the final node ends the [for]
    loop of that round only. Returned with the outcome is [iters_left] as it
    stands when the loop is left. *)
Fixpoint while_loop (final_node : nat) (iters_left : nat)
    (computable_nodes : list nat) (st : locals) : result locals * nat :=
  match iters_left with
  | O => (Ok st, iters_left)
  | S iters_left' =>
      match computable_nodes with
      | [] => (Ok st, iters_left)
      | _ :: _ =>
          match for_nodes final_node computable_nodes st with
          | Raise e => (Raise e, iters_left)
          | Ok st' =>
              match _unvisited_nodes_with_all_inputs (edge_info st') with
              | Raise e => (Raise e, iters_left)
              | Ok computable_nodes' =>
                  while_loop final_node iters_left' computable_nodes' st'
              end
          end
      end
  end.

Definition max_iter : nat := 10.

Definition _traverse_graph (pl : payload) : result (pyvalue V) :=
  final_node <- output_node ;;
  computable_nodes <- _unvisited_nodes_with_all_inputs pl ;;
  st <- fst (while_loop final_node max_iter computable_nodes
               {| edge_info := pl;
                  calculation_results := None;
                  final_node_reached := false |}) ;;
  if negb (final_node_reached st)
  then Raise (ValueError CouldntReach)
  else match calculation_results st with
       | Some results => Ok results
       | None => Raise (UnboundLocalError (Builtin "calculation_results"))
       end.

(** The seeding loop shared by [compute] and [parse_frequencies]: each input
    node is called on the value supplied from outside, [first_call node],
    and the one-element list of its result is handed to the successor
    edges. *)
Fixpoint seed (first_call : nat -> result V) (input_nodes : list nat)
    (pl : payload) : result payload :=
  match input_nodes with
  | [] => Ok pl
  | node :: rest =>
      calculation_results <- first_call node ;;
      pl' <- _update_successor_edge_information pl node [calculation_results] ;;
      seed first_call rest pl'
  end.

End Pass.

(** *** The two passes *)

Variable pd : kernel.

(** [node.compute(input_data)] *)
Definition compute_input (input_data : DataFrame) (node : nat)
    : result object :=
  nodes.compute pd (obj self node) [PFrame input_data].

(** [node.output_frequency(input_frequencies[node.ts_name])] *)
Definition output_frequency_input
    (input_frequencies : string -> option frequencies.FreqStr) (node : nat)
    : result frequencies.FreqStr :=
  ts_name <- ts_name_of (obj self node) ;;
  match input_frequencies ts_name with
  | None => Raise (KeyError (Builtin ts_name))
  | Some f => nodes.output_frequency (obj self node) [f]
  end.

(** [compute(input_data)]; [st] is what the edges hold under the key
    ['compute'] when the call is made. [_clear_cache] resets the attribute
    [_result_cache] of the nodes, which the model leaves out. *)
Definition compute (st : payload object) (input_data : DataFrame)
    : result (pyvalue object) :=
  let pl := _clear_edge_info st in
  pl' <- seed (compute_input input_data) input_nodes pl ;;
  _traverse_graph (nodes.compute pd) pl'.

(** [parse_frequencies(input_frequencies)]; [st] is what the edges hold under
    the key ['output_frequency'] when the call is made. *)
Definition parse_frequencies (st : payload frequencies.FreqStr)
    (input_frequencies : string -> option frequencies.FreqStr)
    : result (pyvalue frequencies.FreqStr) :=
  let pl := _clear_edge_info st in
  pl' <- seed (output_frequency_input input_frequencies) input_nodes pl ;;
  _traverse_graph nodes.output_frequency pl'.

End Methods.

End graphs.

(** ** Graphs and inputs used in the statements below *)

Module examples.

Import pandas nodes graphs.

(** The enumeration of a set in the order its elements were added. *)
Definition insertion_order (l : list nat) : list nat := l.

(** A kernel standing for pandas where a closed statement needs one: no
    statement below depends on what it answers. *)
Definition plain_kernel : kernel :=
  {| resample := fun _ _ data => Ok data;
     frame_arith := fun _ x _ => Ok x |}.

Definition nothing_staged {V : Type} : payload V := fun _ _ => None.

Definition with_input_idx (i : Z) : attrs :=
  {| input_idx := Some i; output_idx := None |}.

(** [Input("A") -> Output("X")] and the table [{"A": [1, 2, 3]}]. *)
Definition objects_in_out (n : nat) : Calculation :=
  match n with
  | 0 => Input "A"
  | _ => Output "X"
  end.

Definition graph_in_out : CompositeCalculation :=
  init objects_in_out [(0, 1, no_attrs)].

Definition values_1_2_3 : list float := [1; 2; 3]%float.
Definition values_10_20_30 : list float := [10; 20; 30]%float.

(** The second value of a series a call returned. *)
Definition second_value (r : result object) : float :=
  match r with
  | Ok (PSeries s) => nth 1 (values s) 0%float
  | _ => 0%float
  end.

Definition table_A123 : DataFrame :=
  {| columns := [("A"%string, [1; 2; 3]%float)] |}.

(** Two inputs into a [Subtract], the edge from [Input("A")] with
    [input_idx] 1 and the edge from [Input("B")] with [input_idx] 2; with
    the third edge, the difference goes on to [Output("X")]. *)
Definition objects_subtract (const_float : float) (n : nat) : Calculation :=
  match n with
  | 0 => Input "A"
  | 1 => Input "B"
  | 2 => Subtract const_float
  | _ => Output "X"
  end.

Definition edge_A : edge := (0, 2, with_input_idx 1).
Definition edge_B : edge := (1, 2, with_input_idx 2).

Definition table_AB (a b : list float) : DataFrame :=
  {| columns := [("A"%string, a); ("B"%string, b)] |}.



(** An input with two successors: [Input("A")] feeds two [Add] nodes whose
    results a third one adds up. *)
Definition objects_fan_out (n : nat) : Calculation :=
  match n with
  | 0 => Input "A"
  | _ => Add 0
  end.

Definition graph_fan_out : CompositeCalculation :=
  init objects_fan_out
       [(0, 1, no_attrs); (0, 2, no_attrs); (1, 3, no_attrs); (2, 3, no_attrs)].

(** A [Subtract] with a single predecessor, and a [Filter] that hands a
    table to an [Output]. *)
Definition objects_lone_subtract (n : nat) : Calculation :=
  match n with
  | 0 => Input "A"
  | _ => Subtract 0
  end.

Definition graph_lone_subtract : CompositeCalculation :=
  init objects_lone_subtract [(0, 1, with_input_idx 1)].

Definition objects_filter_out (n : nat) : Calculation :=
  match n with
  | 0 => Filter ["A"%string] false
  | _ => Output "X"
  end.

Definition graph_filter_out : CompositeCalculation :=
  init objects_filter_out [(0, 1, no_attrs)].

(** The chain [Input("A") -> Multiply -> ... -> Multiply -> Output("X")]
    with [k] edges, that is with nodes [0 .. k]. *)
Definition objects_chain (k : nat) (n : nat) : Calculation :=
  match n with
  | 0 => Input "A"
  | _ => if (n =? k)%nat then Output "X" else Multiply 1
  end.

Definition edges_chain (k : nat) : list edge :=
  map (fun i => (i, S i, no_attrs)) (seq 0 k).

Definition graph_chain (k : nat) : CompositeCalculation :=
  init (objects_chain k) (edges_chain k).

(** The frequencies [{"A": "M", "B": "Q"}], and what seeding the two
    inputs of the [Subtract] graph with them leaves on the edges. *)
Definition A_monthly_B_quarterly (ts_name : string)
    : option frequencies.FreqStr :=
  if String.eqb ts_name "A" then Some frequencies.M
  else if String.eqb ts_name "B" then Some frequencies.Q
  else None.

Definition staged_M_Q : payload frequencies.FreqStr :=
  set_payload (set_payload nothing_staged 0 2 frequencies.M) 1 2 frequencies.Q.

Definition staged_A123 : payload object :=
  set_payload nothing_staged 0 1
    (PSeries {| name := Some "A"%string; values := values_1_2_3 |}).

Definition every_input (f : frequencies.FreqStr)
    : string -> option frequencies.FreqStr :=
  fun _ => Some f.


(** [Input("A") -> Output("X")] beside the two-node cycle [2 -> 3 -> 2]. *)
Definition objects_cycle (n : nat) : Calculation :=
  match n with
  | 0 => Input "A"
  | 1 => Output "X"
  | _ => Add 0
  end.

Definition graph_cycle_aside : CompositeCalculation :=
  init objects_cycle [(0, 1, no_attrs); (2, 3, no_attrs); (3, 2, no_attrs)].

(** [Input("A") -> 1], the cycle [1 -> 2 -> 1], and [2 -> Output("X")]. *)
Definition objects_cycle_before_output (n : nat) : Calculation :=
  match n with
  | 0 => Input "A"
  | 3 => Output "X"
  | _ => Add 0
  end.

Definition graph_cycle_before_output : CompositeCalculation :=
  init objects_cycle_before_output
       [(0, 1, no_attrs); (1, 2, no_attrs); (2, 1, no_attrs); (2, 3, no_attrs)].

Definition behind_the_cycle (n : nat) : bool :=
  match n with
  | 1 | 2 | 3 => true
  | _ => false
  end.

End examples.

(** ** The course of a pass *)

Module course.

Import pandas nodes graphs.

(** The exception that leaves the [try] statement when the method of
    [node] raises [e]. *)
Definition reraised (node : nat) (e : exception) : exception :=
  match e with
  | ValueError err => ValueError (ProblemOccured node err)
  | _ => e
  end.

Section Course.

Variable set_list : list nat -> list nat.
Variable self : CompositeCalculation.
Variable V : Type.
Variable method : Calculation -> list V -> result V.

(** [for_raises final nodes st node e]: in the [for] loop over [nodes]
    entered with the variables [st], the method of [node] raises [e], the
    nodes before it having been evaluated without reaching the final
    node. *)
Inductive for_raises (final : nat)
    : list nat -> locals V -> nat -> exception -> Prop :=
| for_raises_here (node : nat) (rest : list nat) (st : locals V)
    (inputs : list (option V)) (args : list V) (e : exception) :
    _get_predecessor_edge_information self (edge_info st) node = Ok inputs ->
    arguments inputs = Ok args ->
    method (obj self node) args = Raise e ->
    for_raises final (node :: rest) st node e
| for_raises_later (first : nat) (rest : list nat) (st st' : locals V)
    (node : nat) (e : exception) :
    first <> final ->
    for_nodes self method final [first] st = Ok st' ->
    for_raises final rest st' node e ->
    for_raises final (first :: rest) st node e.

(** [while_raises final k nodes st node e]: in the [while] loop entered
    with [k] iterations left, the computable nodes [nodes] and the variables
    [st], the method of [node] raises [e] in some round. *)
Inductive while_raises (final : nat)
    : nat -> list nat -> locals V -> nat -> exception -> Prop :=
| while_raises_now (k c : nat) (cs : list nat) (st : locals V)
    (node : nat) (e : exception) :
    for_raises final (c :: cs) st node e ->
    while_raises final (S k) (c :: cs) st node e
| while_raises_later (k c : nat) (cs cs' : list nat) (st st' : locals V)
    (node : nat) (e : exception) :
    for_nodes self method final (c :: cs) st = Ok st' ->
    _unvisited_nodes_with_all_inputs set_list self (edge_info st') = Ok cs' ->
    while_raises final k cs' st' node e ->
    while_raises final (S k) (c :: cs) st node e.

(** [traverse_raises pl node e]: in [_traverse_graph] entered with the edge
    values [pl], the method of [node] raises [e] in some round of the
    loop. *)
Definition traverse_raises (pl : payload V) (node : nat) (e : exception)
    : Prop :=
  exists final computable_nodes,
    output_node self = Ok final /\
    _unvisited_nodes_with_all_inputs set_list self pl = Ok computable_nodes /\
    while_raises final max_iter computable_nodes
      {| edge_info := pl; calculation_results := None;
         final_node_reached := false |} node e.

(** One round of the [while] loop: the [for] loop over the computable
    nodes, then the nodes that are computable next. *)
Definition one_round (final : nat) (computable_nodes : list nat)
    (st : locals V) : result (list nat * locals V) :=
  st' <- for_nodes self method final computable_nodes st ;;
  computable_nodes' <-
    _unvisited_nodes_with_all_inputs set_list self (edge_info st') ;;
  Ok (computable_nodes', st').

(** [rounds_run final n cs st cs' st']: [n] rounds in a row, each over a
    list of computable nodes that is not empty, lead from the computable
    nodes [cs] and the variables [st] to [cs'] and [st']. *)
Inductive rounds_run (final : nat)
    : nat -> list nat -> locals V -> list nat -> locals V -> Prop :=
| rounds_run_none (cs : list nat) (st : locals V) :
    rounds_run final 0 cs st cs st
| rounds_run_more (n c : nat) (cs cs1 cs' : list nat) (st st1 st' : locals V) :
    one_round final (c :: cs) st = Ok (cs1, st1) ->
    rounds_run final n cs1 st1 cs' st' ->
    rounds_run final (S n) (c :: cs) st cs' st'.

(** What the [while] loop entered with [k] iterations left did, told from
    its outcome [out], the variables or the exception it ends with and the
    iterations that were left then. When it ends with the variables [st'],
    it has run [n] rounds, one for each iteration used up, and stopped for
    want of iterations or of computable nodes. When it ends with the
    exception [e], it has run [n] rounds, had an iteration left, and [e] was
    raised in the round after them. *)
Definition loop_ends (final k : nat) (cs : list nat) (st st' : locals V)
    (k' : nat) : Prop :=
  exists n cs',
    n + k' = k /\ n <= k /\
    rounds_run final n cs st cs' st' /\
    (k' = 0 \/ cs' = []).

Definition loop_raises (final k : nat) (cs : list nat) (st : locals V)
    (e : exception) (k' : nat) : Prop :=
  exists n c1 cs1 st1,
    n + k' = k /\ n < k /\
    rounds_run final n cs st (c1 :: cs1) st1 /\
    one_round final (c1 :: cs1) st1 = Raise e.

Definition ran_rounds (final k : nat) (cs : list nat) (st : locals V)
    (out : result (locals V) * nat) : Prop :=
  match out with
  | (Ok st', k') => loop_ends final k cs st st' k'
  | (Raise e, k') => loop_raises final k cs st e k'
  end.

(** A set of nodes, given by its membership test, every node of which has a
    predecessor in the set: the nodes of a cycle, alone or with nodes
    downstream of it. *)
Definition fed_from_within (inside : nat -> bool) : Prop :=
  forall node, inside node = true ->
    exists p, In p (predecessors (G self) node) /\ inside p = true.

(** No edge out of the set holds a value. *)
Definition nothing_leaves (inside : nat -> bool) (pl : payload V) : Prop :=
  forall u v, inside u = true -> pl u v = None.

End Course.

End course.

(** ** Notions used in the further properties *)

Module notions.

Import pandas nodes graphs.

(** The order [sorted] sorts by: the second component, the index. *)
Definition by_index (a b : nat * Z) : Prop := (snd a <= snd b)%Z.

(** Whether an item of an adjacency dictionary has the index [get] reads,
    and the item with that index in place of the attributes. *)
Definition has_index (get : attrs -> option Z) (item : nat * attrs) : bool :=
  match get (snd item) with Some _ => true | None => false end.

Definition indexed (get : attrs -> option Z) (item : nat * attrs) : nat * Z :=
  (fst item, match get (snd item) with Some i => i | None => 0%Z end).

(** The two nodes an edge joins. *)
Definition endpoints (e : edge) : nat * nat := fst e.

(** A graph without repeated nodes or repeated edges, whose edges join
    nodes of the graph and whose nodes all lie on an edge. *)
Definition simple (g : DiGraph) : Prop :=
  NoDup (nodes g) /\
  NoDup (map endpoints (edges g)) /\
  (forall u v dd, In (u, v, dd) (edges g) ->
     In u (nodes g) /\ In v (nodes g)) /\
  (forall n, In n (nodes g) ->
     exists u v dd, In (u, v, dd) (edges g) /\ (n = u \/ n = v)).

Definition is_frame (x : object) : bool :=
  match x with PFrame _ => true | PSeries _ => false end.

Section Starvation.

Variable self : CompositeCalculation.
Variable V : Type.

(** An edge [(u, v)] on which no value can be staged: [u] is in the set
    [inside], or [v] is not the first successor of [u]. *)
Definition never_staged (inside : nat -> bool) (u v : nat) : Prop :=
  inside u = true \/ hd_error (successors (G self) u) <> Some v.

(** Every node of the set has an incoming edge of that kind. *)
Definition starved (inside : nat -> bool) : Prop :=
  forall node, inside node = true ->
    exists p, In p (predecessors (G self) node) /\ never_staged inside p node.

Definition kept_empty (inside : nat -> bool) (pl : payload V) : Prop :=
  forall u v, never_staged inside u v -> pl u v = None.

(** Every edge into [final] holds a value. *)
Definition ready (final : nat) (pl : payload V) : bool :=
  forallb (fun p => is_not_None (pl p final)) (predecessors (G self) final).

(** What holds of the variables of [_traverse_graph] once the final node
    has been reached: its inputs are there, and [calculation_results] is the
    list around a value its method returned. *)
Definition settled (method : Calculation -> list V -> result V) (final : nat)
    (st : locals V) : Prop :=
  final_node_reached st = true ->
  ready final (edge_info st) = true /\
  exists args v, method (obj self final) args = Ok v /\
                 calculation_results st = Some (PyList [v]).

End Starvation.

End notions.

Module more_examples.

Import pandas nodes graphs examples.

(** A table without the column ["A"]. *)
Definition table_B_only : DataFrame :=
  {| columns := [("B"%string, values_1_2_3)] |}.

(** [Input("A")] with an edge to each of two [Output] nodes. *)
Definition objects_two_outputs (n : nat) : Calculation :=
  match n with
  | 0 => Input "A"
  | _ => Output "X"
  end.

Definition graph_two_outputs : CompositeCalculation :=
  init objects_two_outputs [(0, 1, no_attrs); (0, 2, no_attrs)].

(** In [graph_fan_out], the nodes behind the second edge out of the input. *)
Definition beyond_second_edge (n : nat) : bool :=
  match n with
  | 2 | 3 => true
  | _ => false
  end.

(** The [Subtract] graph with its two edges in either order. *)
Definition subtract_graph_AB : CompositeCalculation :=
  init (objects_subtract 0) [edge_A; edge_B].

Definition subtract_graph_BA : CompositeCalculation :=
  init (objects_subtract 0) [edge_B; edge_A].

End more_examples.

(** ** Frequencies given as strings

    [parse_frequencies] is called with a dictionary from the names of the
    inputs to strings, which [PassthroughFrequency.output_frequency] turns
    into members of the enumeration. *)

Module frequency_strings.

Import frequencies nodes graphs.

(** [FreqStr(x)] for a string [x]: the member whose value is [x], or the
    [ValueError] of the enumeration. *)
Definition FreqStr_of_string (x : string) : result FreqStr :=
  if String.eqb x "D" then Ok D
  else if String.eqb x "M" then Ok M
  else if String.eqb x "Q" then Ok Q
  else if String.eqb x "A" then Ok A
  else Raise (ValueError (Builtin ("'" ++ x ++ "' is not a valid FreqStr"))).

Section Strings.

Variable set_list : list nat -> list nat.
Variable self : CompositeCalculation.

(** [node.output_frequency(input_frequencies[node.ts_name])] for a
    dictionary of strings. A node with a [ts_name] is an [Input] or an
    [Output], whose handler is [PassthroughFrequency]: called with the one
    string, it passes the arity check and returns [FreqStr(input_freq)]. *)
Definition output_frequency_input_of_strings
    (input_frequencies : string -> option string) (node : nat)
    : result FreqStr :=
  ts_name <- ts_name_of (obj self node) ;;
  match input_frequencies ts_name with
  | None => Raise (KeyError (Builtin ts_name))
  | Some input_freq => FreqStr_of_string input_freq
  end.

Definition parse_frequencies_of_strings (st : payload FreqStr)
    (input_frequencies : string -> option string)
    : result (pyvalue FreqStr) :=
  let pl := _clear_edge_info st in
  pl' <- seed self (output_frequency_input_of_strings input_frequencies)
              (input_nodes self) pl ;;
  _traverse_graph set_list self nodes.output_frequency pl'.

(** The dictionary of strings that holds the values of the members of a
    dictionary of members. *)
Definition values_of (input_frequencies : string -> option FreqStr)
    (ts_name : string) : option string :=
  option_map value (input_frequencies ts_name).

End Strings.

End frequency_strings.

(** * Properties *)

(** ** The frequency order and the handlers *)

Section FrequencyOrder.

Import frequencies.

(** The running maximum of [max] is an element no element exceeds. *)
Lemma max_from_spec (l : list FreqStr) : forall cur,
  In (max_from cur l) (cur :: l) /\
  (forall x, In x (cur :: l) -> (numbervalue x <= numbervalue (max_from cur l))%Z).
Proof.
  induction l as [|y r IH]; intros cur; simpl.
  - split; [now left|]. intros x [<-|[]]. lia.
  - destruct (IH (if gt y cur then y else cur)) as [Hin Hle]. split.
    + destruct Hin as [Hin|Hin]; [|now right; right].
      rewrite <- Hin. destruct (gt y cur); [right; now left | now left].
    + pose proof (Hle _ (or_introl eq_refl)) as Hcur.
      assert (Hstep : (numbervalue cur <= numbervalue (if gt y cur then y else cur)
                       /\ numbervalue y <= numbervalue (if gt y cur then y else cur))%Z).
      { unfold gt. destruct (Z.gtb_spec (numbervalue y) (numbervalue cur)); lia. }
      intros x [<-|[<-|Hx]]; [lia | lia | apply Hle; now right].
Qed.

(** The running minimum of [min] is an element that exceeds no element. *)
Lemma min_from_spec (l : list FreqStr) : forall cur,
  In (min_from cur l) (cur :: l) /\
  (forall x, In x (cur :: l) -> (numbervalue (min_from cur l) <= numbervalue x)%Z).
Proof.
  induction l as [|y r IH]; intros cur; simpl.
  - split; [now left|]. intros x [<-|[]]. lia.
  - destruct (IH (if lt y cur then y else cur)) as [Hin Hle]. split.
    + destruct Hin as [Hin|Hin]; [|now right; right].
      rewrite <- Hin. destruct (lt y cur); [right; now left | now left].
    + pose proof (Hle _ (or_introl eq_refl)) as Hcur.
      assert (Hstep : (numbervalue (if lt y cur then y else cur) <= numbervalue cur
                       /\ numbervalue (if lt y cur then y else cur) <= numbervalue y)%Z).
      { unfold lt. destruct (Z.ltb_spec (numbervalue y) (numbervalue cur)); lia. }
      intros x [<-|[<-|Hx]]; [lia | lia | apply Hle; now right].
Qed.

(** C2: the members are ordered [D < M < Q < A], and on every non-empty
    tuple of frequencies [CoarsestFrequency] returns a member of the tuple
    that no member exceeds, [FinestFrequency] one that exceeds no member. *)
Theorem coarsest_max_finest_min :
  (lt D M = true /\ lt M Q = true /\ lt Q A = true) /\
  forall (f : FreqStr) (fs : list FreqStr),
    (exists hi, output_frequency CoarsestFrequency (f :: fs) = Ok hi /\
                In hi (f :: fs) /\
                forall x, In x (f :: fs) -> (numbervalue x <= numbervalue hi)%Z) /\
    (exists lo, output_frequency FinestFrequency (f :: fs) = Ok lo /\
                In lo (f :: fs) /\
                forall x, In x (f :: fs) -> (numbervalue lo <= numbervalue x)%Z).
Proof.
  split; [repeat split|]. intros f fs.
  unfold output_frequency, super_output_frequency; simpl.
  rewrite map_id.
  destruct (max_from_spec fs f) as [Hin Hle].
  destruct (min_from_spec fs f) as [Hin' Hle'].
  split; [exists (max_from f fs) | exists (min_from f fs)];
    (split; [reflexivity | split; assumption]).
Qed.

(** C6: [DownsampleFrequency] with target [Q] raises the "can only
    aggregate" [ValueError] on [A] and returns [Q] on [M]; on one input
    frequency [f] it raises exactly when [f] ranks above the target, and
    returns the target otherwise. *)
Theorem downsample_fails_iff_finer_target :
  output_frequency (DownsampleFrequency Q) [A] = Raise (ValueError CanOnlyAggregate) /\
  output_frequency (DownsampleFrequency Q) [M] = Ok Q /\
  forall target f : FreqStr,
    output_frequency (DownsampleFrequency target) [f] =
      (if (numbervalue target <? numbervalue f)%Z
       then Raise (ValueError CanOnlyAggregate) else Ok target).
Proof.
  repeat split. intros target f. destruct target, f; reflexivity.
Qed.

(** C10: the handlers without a fixed arity, [IdenticalFrequencies()],
    [CoarsestFrequency] and [FinestFrequency], each raise an exception when
    called without any input frequency. *)
Theorem unconstrained_handlers_reject_no_input :
  INPUTS_N (IdenticalFrequencies None) = None /\
  INPUTS_N CoarsestFrequency = None /\
  INPUTS_N FinestFrequency = None /\
  output_frequency (IdenticalFrequencies None) [] =
    Raise (IndexError (Builtin "tuple index out of range")) /\
  output_frequency CoarsestFrequency [] =
    Raise (ValueError (Builtin "max() arg is an empty sequence")) /\
  output_frequency FinestFrequency [] =
    Raise (ValueError (Builtin "min() arg is an empty sequence")).
Proof. repeat split. Qed.

End FrequencyOrder.

(** ** The arithmetic nodes *)

Section Arithmetic.

Import pandas nodes examples.

(** C9, as the code has it: [Add(const_float=5.0)] on two series over the
    same index with values [1, 2, 3] and [10, 20, 30] returns the series
    with values [16, 27, 38]; it keeps the operands' name when they share
    one. *)
Theorem add_const_aligned (pd : kernel) (n1 n2 : option string) :
  compute pd (Add 5) [PSeries {| name := n1; values := values_1_2_3 |};
                      PSeries {| name := n2; values := values_10_20_30 |}] =
    Ok (PSeries {| name := if name_eqb n1 n2 then n1 else None;
                   values := [16; 27; 38]%float |}).
Proof. reflexivity. Qed.

(** C9, as stated: the values [16, 22, 38] are not what [Add] returns,
    whatever the names of the series and the answers of pandas. *)
Lemma add_const_not_16_22_38 :
  ~ exists (pd : kernel) (n1 n2 n : option string),
      compute pd (Add 5) [PSeries {| name := n1; values := values_1_2_3 |};
                          PSeries {| name := n2; values := values_10_20_30 |}] =
        Ok (PSeries {| name := n; values := [16; 22; 38]%float |}).
Proof.
  intros (pd & n1 & n2 & n & H).
  pose proof (f_equal (fun r => PrimFloat.eqb (second_value r) 22) H) as E.
  vm_compute in E. discriminate E.
Qed.

End Arithmetic.

(** ** The traversal engine *)

Section Engine.

Import pandas nodes graphs examples course.

(** The enumeration of a set lists exactly the nodes collected into it. *)
Variable set_list : list nat -> list nat.
Hypothesis set_list_perm : forall l, Permutation (set_list l) l.

Lemma set_list_nil : set_list [] = [].
Proof. apply Permutation_nil, Permutation_sym, set_list_perm. Qed.

Lemma set_list_one (x : nat) : set_list [x] = [x].
Proof. apply Permutation_length_1_inv, Permutation_sym, set_list_perm. Qed.

Lemma set_list_in (x : nat) (l : list nat) : In x (set_list l) -> In x l.
Proof. apply Permutation_in, set_list_perm. Qed.

(** *** Running a pass round by round *)

Section Rounds.

Variable self : CompositeCalculation.
Variable V : Type.
Variable method : Calculation -> list V -> result V.

Lemma frontier_one (pl : payload V) (x : nat) :
  collect_unvisited self pl (nodes (G self)) = Ok [x] ->
  _unvisited_nodes_with_all_inputs set_list self pl = Ok [x].
Proof.
  unfold _unvisited_nodes_with_all_inputs. intros ->. cbn [bind].
  now rewrite set_list_one.
Qed.

Lemma frontier_none (pl : payload V) :
  collect_unvisited self pl (nodes (G self)) = Ok [] ->
  _unvisited_nodes_with_all_inputs set_list self pl = Ok [].
Proof.
  unfold _unvisited_nodes_with_all_inputs. intros ->. cbn [bind].
  now rewrite set_list_nil.
Qed.

(** *** The inputs of a computable node *)

Lemma insert_sorted_in (x y : nat * Z) (l : list (nat * Z)) :
  In y (insert_sorted x l) -> y = x \/ In y l.
Proof.
  induction l as [|z l IH]; cbn.
  - intros [<-|[]]. now left.
  - destruct (snd x <=? snd z)%Z; cbn; intros [H|H]; subst; auto.
    destruct (IH H); auto.
Qed.

Lemma sorted_in (y : nat * Z) (l : list (nat * Z)) : In y (sorted l) -> In y l.
Proof.
  induction l as [|x l IH]; cbn; [easy|].
  intros H. apply insert_sorted_in in H. destruct H; auto.
Qed.

Lemma index_items_fst (key : string) (get : attrs -> option Z)
    (l : list (nat * attrs)) :
  forall r, index_items key get l = Ok r -> map fst r = map fst l.
Proof.
  induction l as [|[node args] l IH]; cbn; intros r H.
  - now injection H as <-.
  - destruct (get args); [|discriminate].
    destruct (index_items key get l) as [r'|]; [cbn in H|discriminate].
    injection H as <-. cbn. f_equal. now apply IH.
Qed.

Lemma sorted_predecessors_subset (node : nat) (ps : list nat) :
  get_sorted_node_predecessors self node = Ok ps ->
  forall p, In p ps -> In p (predecessors (G self) node).
Proof.
  unfold get_sorted_node_predecessors.
  destruct (check_input_order (obj self node)).
  - destruct (index_items "input_idx" input_idx (pred (G self) node))
      as [items|] eqn:Hitems; [cbn [bind]|discriminate].
    intros H p Hp. injection H as <-.
    apply in_map_iff in Hp. destruct Hp as (y & <- & Hy).
    apply sorted_in in Hy. unfold predecessors.
    rewrite <- (index_items_fst _ _ _ Hitems). now apply in_map.
  - intros H. now injection H as <-.
Qed.

Lemma collect_ready (pl : payload V) (l : list nat) :
  forall (cs : list nat) (node : nat),
    collect_unvisited self pl l = Ok cs -> In node cs ->
    forallb (fun p => is_not_None (pl p node)) (predecessors (G self) node)
      = true.
Proof.
  induction l as [|n l IH]; intros cs node Hc Hin.
  - cbn in Hc. injection Hc as <-. destruct Hin.
  - cbn [collect_unvisited] in Hc.
    destruct (output_node self) as [f|e]; [cbn [bind] in Hc|discriminate].
    destruct (collect_unvisited self pl l) as [others|e];
      [cbn [bind] in Hc|discriminate].
    destruct (forallb (fun p => is_not_None (pl p n)) (predecessors (G self) n))
      eqn:Hready; cbn [andb] in Hc.
    + destruct (_ || _)%bool; injection Hc as <-;
        [destruct Hin as [<-|Hin]; [assumption|] |]; now apply (IH others).
    + injection Hc as <-. now apply (IH others).
Qed.


Lemma arguments_ready (inputs : list (option V)) :
  forallb (@is_not_None V) inputs = true ->
  exists args, arguments inputs = Ok args.
Proof.
  induction inputs as [|[v|] inputs IH]; cbn; intros H.
  - now exists [].
  - destruct (IH H) as (args & ->). now exists (v :: args).
  - discriminate H.
Qed.

(** The inputs of a node of the frontier are all values: none is [None]. *)
Lemma frontier_inputs_ready (pl : payload V) (cs : list nat) (node : nat)
    (inputs : list (option V)) :
  _unvisited_nodes_with_all_inputs set_list self pl = Ok cs ->
  In node cs ->
  _get_predecessor_edge_information self pl node = Ok inputs ->
  exists args, arguments inputs = Ok args.
Proof.
  unfold _unvisited_nodes_with_all_inputs, _get_predecessor_edge_information.
  intros Hfr Hin Hinputs.
  destruct (collect_unvisited self pl (nodes (G self))) as [l|] eqn:Hc;
    [cbn [bind] in Hfr|discriminate].
  injection Hfr as <-. apply set_list_in in Hin.
  assert (Hready : forallb (fun p => is_not_None (pl p node))
                     (predecessors (G self) node) = true)
    by (eapply collect_ready; eassumption).
  destruct (get_sorted_node_predecessors self node) as [ps|] eqn:Hps;
    [cbn [bind] in Hinputs|discriminate].
  injection Hinputs as <-. apply arguments_ready.
  rewrite forallb_forall in *. intros x Hx.
  apply in_map_iff in Hx. destruct Hx as (p & <- & Hp).
  apply Hready. eapply sorted_predecessors_subset; eassumption.
Qed.

(** A value staged on an edge stays: an update only adds values. *)
Lemma set_payload_keeps (pl : payload V) (u v u' v' : nat) (x : V) :
  is_not_None (pl u' v') = true ->
  is_not_None (set_payload pl u v x u' v') = true.
Proof. unfold set_payload. now destruct ((u' =? u) && (v' =? v))%bool. Qed.

Lemma while_loop_round (final k c : nat) (cs : list nat) (st : locals V) :
  while_loop set_list self method final (S k) (c :: cs) st =
    match for_nodes self method final (c :: cs) st with
    | Raise e => (Raise e, S k)
    | Ok st' =>
        match _unvisited_nodes_with_all_inputs set_list self (edge_info st') with
        | Raise e => (Raise e, S k)
        | Ok cs' => while_loop set_list self method final k cs' st'
        end
    end.
Proof. reflexivity. Qed.

(** One round of the loop that neither raises nor is the last one. *)
Lemma while_round (final k c : nat) (cs cs' : list nat)
    (st st' : locals V) (out : result (locals V)) :
  for_nodes self method final (c :: cs) st = Ok st' ->
  _unvisited_nodes_with_all_inputs set_list self (edge_info st') = Ok cs' ->
  fst (while_loop set_list self method final k cs' st') = out ->
  fst (while_loop set_list self method final (S k) (c :: cs) st) = out.
Proof. intros Hfor Hfr <-. now rewrite while_loop_round, Hfor, Hfr. Qed.

(** Once a round leaves the variables and the frontier as they were, so do
    all the rounds that remain: the loop goes on after the final node has
    been reached, evaluating it again in every round. *)
Lemma while_stable (final c : nat) (cs : list nat) (st : locals V) :
  for_nodes self method final (c :: cs) st = Ok st ->
  _unvisited_nodes_with_all_inputs set_list self (edge_info st) = Ok (c :: cs) ->
  forall k, fst (while_loop set_list self method final k (c :: cs) st) = Ok st.
Proof.
  intros Hfor Hfr k. induction k as [|k IH]; [reflexivity|].
  now rewrite while_loop_round, Hfor, Hfr.
Qed.

Lemma traverse_reached (pl : payload V) (final : nat) (cs : list nat)
    (st : locals V) (results : pyvalue V) :
  output_node self = Ok final ->
  _unvisited_nodes_with_all_inputs set_list self pl = Ok cs ->
  fst (while_loop set_list self method final max_iter cs
         {| edge_info := pl; calculation_results := None;
            final_node_reached := false |}) = Ok st ->
  final_node_reached st = true ->
  calculation_results st = Some results ->
  _traverse_graph set_list self method pl = Ok results.
Proof.
  intros Hout Hfr Hloop Hreached Hres. unfold _traverse_graph.
  rewrite Hout; cbn [bind]. rewrite Hfr; cbn [bind].
  rewrite Hloop; cbn [bind]. now rewrite Hreached, Hres.
Qed.

Lemma traverse_not_reached (pl : payload V) (final : nat) (cs : list nat)
    (st : locals V) :
  output_node self = Ok final ->
  _unvisited_nodes_with_all_inputs set_list self pl = Ok cs ->
  fst (while_loop set_list self method final max_iter cs
         {| edge_info := pl; calculation_results := None;
            final_node_reached := false |}) = Ok st ->
  final_node_reached st = false ->
  _traverse_graph set_list self method pl = Raise (ValueError CouldntReach).
Proof.
  intros Hout Hfr Hloop Hreached. unfold _traverse_graph.
  rewrite Hout; cbn [bind]. rewrite Hfr; cbn [bind].
  rewrite Hloop; cbn [bind]. now rewrite Hreached.
Qed.

Lemma traverse_raised (pl : payload V) (final : nat) (cs : list nat)
    (e : exception) :
  output_node self = Ok final ->
  _unvisited_nodes_with_all_inputs set_list self pl = Ok cs ->
  fst (while_loop set_list self method final max_iter cs
         {| edge_info := pl; calculation_results := None;
            final_node_reached := false |}) = Raise e ->
  _traverse_graph set_list self method pl = Raise e.
Proof.
  intros Hout Hfr Hloop. unfold _traverse_graph.
  rewrite Hout; cbn [bind]. rewrite Hfr; cbn [bind]. now rewrite Hloop.
Qed.

Lemma while_raised (final k c : nat) (cs : list nat) (st : locals V)
    (e : exception) :
  for_nodes self method final (c :: cs) st = Raise e ->
  fst (while_loop set_list self method final (S k) (c :: cs) st) = Raise e.
Proof. intros Hfor. now rewrite while_loop_round, Hfor. Qed.

End Rounds.

Lemma compute_seeded (self : CompositeCalculation) (pd : kernel)
    (st pl' : payload object) (input_data : DataFrame)
    (out : result (pyvalue object)) :
  seed self (compute_input self pd input_data)
       (input_nodes self) (_clear_edge_info st) = Ok pl' ->
  _traverse_graph set_list self (nodes.compute pd) pl' = out ->
  compute set_list self pd st input_data = out.
Proof. unfold compute. intros -> <-. reflexivity. Qed.

Lemma parse_seeded (self : CompositeCalculation)
    (st pl' : payload frequencies.FreqStr)
    (input_frequencies : string -> option frequencies.FreqStr)
    (out : result (pyvalue frequencies.FreqStr)) :
  seed self (output_frequency_input self input_frequencies)
       (input_nodes self) (_clear_edge_info st) = Ok pl' ->
  _traverse_graph set_list self nodes.output_frequency pl' = out ->
  parse_frequencies set_list self st input_frequencies = out.
Proof. unfold parse_frequencies. intros -> <-. reflexivity. Qed.

(** The frontier of a concrete state, and the rounds of a concrete pass. *)
Ltac frontier :=
  first [ apply frontier_one; vm_compute; reflexivity
        | apply frontier_none; vm_compute; reflexivity ].

Ltac rounds :=
  first [ apply while_stable; [vm_compute; reflexivity | frontier]
        | eapply while_round; [vm_compute; reflexivity | frontier | rounds]
        | vm_compute; reflexivity ].

Ltac pass_returns :=
  first [eapply compute_seeded | eapply parse_seeded];
  [ vm_compute; reflexivity
  | eapply traverse_reached;
    [ vm_compute; reflexivity | frontier | change max_iter with 10; rounds
    | reflexivity | reflexivity ] ].


(** *** The pass over [Input("A") -> Output("X")] *)

Lemma in_out_pass (pd : kernel) (st : payload object) :
  compute set_list graph_in_out pd st table_A123 =
    Ok (PyList [PSeries {| name := Some "X"%string; values := values_1_2_3 |}]).
Proof. pass_returns. Qed.

(** C1, as the code has it: on [Input("A") -> Output("X")] and the table
    whose column ["A"] holds [1, 2, 3], [compute] returns the list of
    results of the output node, a one-element list around the series named
    ["X"] with the values [1, 2, 3]. *)
Theorem compute_input_output (pd : kernel) (st : payload object) :
  compute set_list graph_in_out pd st table_A123 =
    Ok (PyList [PSeries {| name := Some "X"%string; values := values_1_2_3 |}]).
Proof. apply in_out_pass. Qed.

(** *** The order of the inputs of [Subtract] *)



(** *** Seeding *)

Section Payload.

Variable V : Type.

Lemma set_payload_same (pl : payload V) (u v : nat) (x : V) :
  set_payload pl u v x u v = Some x.
Proof. unfold set_payload. now rewrite !Nat.eqb_refl. Qed.

Lemma set_payload_other (pl : payload V) (u v u' v' : nat) (x : V) :
  u' <> u \/ v' <> v -> set_payload pl u v x u' v' = pl u' v'.
Proof.
  unfold set_payload. intros H.
  destruct (Nat.eqb_spec u' u), (Nat.eqb_spec v' v); cbn; tauto.
Qed.

End Payload.

Section Seeding.

Variable self : CompositeCalculation.
Variable V : Type.
Variable first_call : nat -> result V.

(** A one-element list of values reaches the first successor only: [zip]
    stops at the shorter of its arguments. *)
Lemma update_with_one_value (pl : payload V) (node : nat) (v : V) :
  _update_successor_edge_information self pl node [v] =
    Ok match successors (G self) node with
       | [] => pl
       | s :: _ => set_payload pl node s v
       end.
Proof.
  unfold _update_successor_edge_information, get_sorted_node_successors.
  cbn. destruct (successors (G self) node) as [|s [|s' rest]]; reflexivity.
Qed.

Lemma seed_elsewhere (ins : list nat) : forall (pl pl' : payload V) (u w : nat),
  seed self first_call ins pl = Ok pl' ->
  (~ In u ins \/ hd_error (successors (G self) u) <> Some w) ->
  pl' u w = pl u w.
Proof.
  induction ins as [|node rest IH]; intros pl pl' u w Hseed Hother.
  - cbn in Hseed. now injection Hseed as <-.
  - cbn [seed] in Hseed.
    destruct (first_call node) as [v|e]; [cbn [bind] in Hseed|discriminate].
    rewrite update_with_one_value in Hseed. cbn [bind] in Hseed.
    rewrite (IH _ _ u w Hseed) by (cbn in Hother; tauto).
    destruct (successors (G self) node) as [|s ss] eqn:Hs; [reflexivity|].
    apply set_payload_other.
    destruct (Nat.eq_dec u node) as [->|]; [|now left].
    right. intros ->. destruct Hother as [Hother|Hother].
    + apply Hother. now left.
    + rewrite Hs in Hother. now apply Hother.
Qed.

Lemma seed_first_successor (ins : list nat) :
  forall (pl pl' : payload V) (node : nat),
  seed self first_call ins pl = Ok pl' ->
  In node ins ->
  exists v, first_call node = Ok v /\
    forall s rest, successors (G self) node = s :: rest -> pl' node s = Some v.
Proof.
  induction ins as [|first rest IH]; intros pl pl' node Hseed Hin; [easy|].
  cbn [seed] in Hseed.
  destruct (first_call first) as [v|e] eqn:Hcall;
    [cbn [bind] in Hseed|discriminate].
  rewrite update_with_one_value in Hseed. cbn [bind] in Hseed.
  destruct (in_dec Nat.eq_dec node rest) as [Hrest|Hrest].
  - exact (IH _ _ node Hseed Hrest).
  - destruct Hin as [->|Hin]; [|contradiction].
    exists v. split; [assumption|]. intros s ss Hs.
    rewrite (@seed_elsewhere _ _ _ node s Hseed) by now left.
    rewrite Hs. apply set_payload_same.
Qed.

Lemma seed_stages (st pl' : payload V) (node : nat) :
  seed self first_call (input_nodes self) (_clear_edge_info st) = Ok pl' ->
  In node (input_nodes self) ->
  exists v, first_call node = Ok v /\
    forall s rest, successors (G self) node = s :: rest ->
      pl' node s = Some v /\ forall s', s' <> s -> pl' node s' = None.
Proof.
  intros Hseed Hin.
  destruct (@seed_first_successor _ _ _ _ Hseed Hin) as (v & Hv & Hfirst).
  exists v. split; [assumption|]. intros s rest Hs.
  split; [now apply (Hfirst s rest)|]. intros s' Hne.
  rewrite (@seed_elsewhere _ _ _ node s' Hseed); [reflexivity|].
  right. rewrite Hs. cbn. congruence.
Qed.

End Seeding.

(** C4, as the code has it: when seeding goes through, in either pass, every
    input node has been called on the value supplied from outside, and its
    result is on the first of its outgoing edges in the declared order of
    the outputs; its other outgoing edges hold nothing. An input node with a
    single outgoing edge therefore has it populated. *)
Theorem seed_stages_first_successor (self : CompositeCalculation)
    (pd : kernel) (input_data : DataFrame)
    (input_frequencies : string -> option frequencies.FreqStr) :
  (forall (st pl' : payload object) (node : nat),
     seed self (compute_input self pd input_data) (input_nodes self)
          (_clear_edge_info st) = Ok pl' ->
     In node (input_nodes self) ->
     exists v, nodes.compute pd (obj self node) [PFrame input_data] = Ok v /\
       forall s rest, successors (G self) node = s :: rest ->
         pl' node s = Some v /\ forall s', s' <> s -> pl' node s' = None)
  /\
  (forall (st pl' : payload frequencies.FreqStr) (node : nat),
     seed self (output_frequency_input self input_frequencies)
          (input_nodes self) (_clear_edge_info st) = Ok pl' ->
     In node (input_nodes self) ->
     exists v, output_frequency_input self input_frequencies node = Ok v /\
       forall s rest, successors (G self) node = s :: rest ->
         pl' node s = Some v /\ forall s', s' <> s -> pl' node s' = None).
Proof.
  split; intros st pl' node Hseed Hin.
  - exact (@seed_stages _ _ _ _ _ _ Hseed Hin).
  - exact (@seed_stages _ _ _ _ _ _ Hseed Hin).
Qed.

(** *** A node that raises *)

Section Failures.

Variable self : CompositeCalculation.
Variable V : Type.
Variable method : Calculation -> list V -> result V.

Lemma try_method_raises (node : nat) (args : list V) (e : exception) :
  method (obj self node) args = Raise e ->
  try_method self method node args = Raise (reraised node e).
Proof. unfold try_method. intros ->. now destruct e. Qed.

Lemma for_nodes_first (final first : nat) (rest : list nat) (st : locals V) :
  first <> final ->
  for_nodes self method final (first :: rest) st =
    (st' <- for_nodes self method final [first] st ;;
     for_nodes self method final rest st').
Proof.
  intros Hne. cbn [for_nodes].
  destruct (_get_predecessor_edge_information self (edge_info st) first)
    as [inputs|e]; [cbn [bind]|reflexivity].
  destruct (arguments inputs) as [args|e]; [cbn [bind]|reflexivity].
  destruct (try_method self method first args) as [r|e];
    [cbn [bind]|reflexivity].
  apply Nat.eqb_neq in Hne. rewrite Hne. cbn [negb].
  now destruct (_update_successor_edge_information _ _ _ _).
Qed.

Lemma for_raises_sound (final : nat) (cs : list nat) (st : locals V)
    (node : nat) (e : exception) :
  for_raises self method final cs st node e ->
  for_nodes self method final cs st = Raise (reraised node e).
Proof.
  induction 1 as [node rest st inputs args e Hin Hargs Hm
                 |first rest st st' node e Hne Hfirst _ IH].
  - cbn [for_nodes]. rewrite Hin; cbn [bind]. rewrite Hargs; cbn [bind].
    now erewrite try_method_raises by eassumption.
  - rewrite for_nodes_first by assumption. now rewrite Hfirst.
Qed.

Lemma while_raises_sound (final k : nat) (cs : list nat) (st : locals V)
    (node : nat) (e : exception) :
  while_raises set_list self method final k cs st node e ->
  fst (while_loop set_list self method final k cs st) =
    Raise (reraised node e).
Proof.
  induction 1 as [k c cs st node e Hfor
                 |k c cs cs' st st' node e Hfor Hfr _ IH].
  - apply while_raised. now apply for_raises_sound.
  - eapply while_round; eassumption.
Qed.

Lemma traverse_raises_sound (pl : payload V) (node : nat) (e : exception) :
  traverse_raises set_list self method pl node e ->
  _traverse_graph set_list self method pl = Raise (reraised node e).
Proof.
  intros (final & cs & Hout & Hfr & Hwhile).
  eapply traverse_raised; [eassumption | eassumption |].
  now apply while_raises_sound.
Qed.

End Failures.

(** C7, as the code has it: when the method of a node raises in a round of
    the loop, in either pass, the pass ends with the exception that leaves
    the [try] statement. For a [ValueError] (differing frequencies, an
    aggregation to a finer frequency, the wrong number of inputs of
    [compute]) that is a [ValueError] naming the node and holding the
    message of the first; an exception of another class (the handlers'
    arity [TypeError], the [TypeError] of the type check) ends the pass as
    it was raised. *)
Theorem node_failure_ends_pass (self : CompositeCalculation) (pd : kernel)
    (node : nat) (e : exception) :
  (forall pl : payload object,
     traverse_raises set_list self (nodes.compute pd) pl node e ->
     _traverse_graph set_list self (nodes.compute pd) pl =
       Raise (reraised node e))
  /\
  (forall pl : payload frequencies.FreqStr,
     traverse_raises set_list self nodes.output_frequency pl node e ->
     _traverse_graph set_list self nodes.output_frequency pl =
       Raise (reraised node e))
  /\
  (forall err, e = ValueError err ->
     reraised node e = ValueError (ProblemOccured node err))
  /\
  ((forall err, e <> ValueError err) -> reraised node e = e).
Proof.
  repeat split.
  - intros pl. apply traverse_raises_sound.
  - intros pl. apply traverse_raises_sound.
  - now intros err ->.
  - intros H. destruct e; try reflexivity. now destruct (H m).
Qed.

(** *** The rounds of the loop *)

(** The [while] loop runs one round for each iteration it uses up, so at
    most as many rounds as it had iterations, and it runs them in the way
    [ran_rounds] tells. *)
Lemma while_loop_rounds (self : CompositeCalculation) (V : Type)
    (method : Calculation -> list V -> result V) (final k : nat) :
  forall (cs : list nat) (st : locals V),
    ran_rounds set_list self method final k cs st
      (while_loop set_list self method final k cs st).
Proof.
  induction k as [|k IH]; intros cs st.
  - cbn. exists 0, cs. split; [lia|]. split; [lia|]. split; [constructor | now left].
  - destruct cs as [|c cs].
    + cbn. exists 0, []. split; [lia|]. split; [lia|]. split; [constructor | now right].
    + rewrite while_loop_round.
      destruct (for_nodes self method final (c :: cs) st) as [st1|e] eqn:Hfor.
      * destruct (_unvisited_nodes_with_all_inputs set_list self
                    (edge_info st1)) as [cs1|e] eqn:Hfr.
        -- assert (Hone : one_round set_list self method final (c :: cs) st
                          = Ok (cs1, st1)).
           { unfold one_round. rewrite Hfor; cbn [bind].
             now rewrite Hfr. }
           specialize (IH cs1 st1).
           destruct (while_loop set_list self method final k cs1 st1)
             as [[st'|e] k'].
           ++ destruct IH as (n & cs' & Hn & Hle & Hrun & Hend).
              exists (S n), cs'. split; [lia|]. split; [lia|]. split; [|assumption].
              econstructor; eassumption.
           ++ destruct IH as (n & c1 & cs2 & st2 & Hn & Hlt & Hrun & He).
              exists (S n), c1, cs2, st2.
              split; [lia|]. split; [lia|]. split; [|assumption].
              econstructor; eassumption.
        -- exists 0, c, cs, st. split; [lia|]. split; [lia|]. split; [constructor|].
           unfold one_round. rewrite Hfor; cbn [bind]. now rewrite Hfr.
      * exists 0, c, cs, st. split; [lia|]. split; [lia|]. split; [constructor|].
        unfold one_round. now rewrite Hfor.
Qed.

(** The rounds of a loop are determined: the loop that has run [n] rounds
    from [cs] and [st], and stops there, ends as [while_loop] does. *)
Lemma rounds_run_while_loop (self : CompositeCalculation) (V : Type)
    (method : Calculation -> list V -> result V) (final n : nat)
    (cs cs' : list nat) (st st' : locals V) :
  rounds_run set_list self method final n cs st cs' st' ->
  forall k' : nat,
    k' = 0 \/ cs' = [] ->
    while_loop set_list self method final (n + k') cs st = (Ok st', k').
Proof.
  induction 1 as [cs st | n c cs cs1 cs' st st1 st' Hone Hrun IH];
    intros k' Hend.
  - cbn [Nat.add]. destruct Hend as [-> | ->]; [reflexivity|].
    now destruct k'.
  - cbn [Nat.add]. rewrite while_loop_round.
    unfold one_round in Hone.
    destruct (for_nodes self method final (c :: cs) st) as [st2|e];
      [cbn [bind] in Hone|discriminate].
    destruct (_unvisited_nodes_with_all_inputs set_list self (edge_info st2))
      as [cs2|e]; [cbn [bind] in Hone|discriminate].
    injection Hone as -> ->. now apply IH.
Qed.

(** *** Nodes behind a cycle *)

Section BehindCycle.

Variable self : CompositeCalculation.
Variable V : Type.
Variable method : Calculation -> list V -> result V.
Variable inside : nat -> bool.
Variable final : nat.
Hypothesis inside_fed : fed_from_within self inside.
Hypothesis final_inside : inside final = true.

(** A node of the set is never computable: one of its inputs comes from
    the set. *)
Lemma frontier_outside (pl : payload V) (cs : list nat) :
  nothing_leaves inside pl ->
  _unvisited_nodes_with_all_inputs set_list self pl = Ok cs ->
  forall node, In node cs -> inside node = false.
Proof.
  unfold _unvisited_nodes_with_all_inputs. intros Hnl Hfr node Hin.
  destruct (collect_unvisited self pl (nodes (G self))) as [l|e] eqn:Hc;
    [cbn [bind] in Hfr|discriminate].
  injection Hfr as <-. apply set_list_in in Hin.
  assert (Hready : forallb (fun p => is_not_None (pl p node))
                     (predecessors (G self) node) = true)
    by (eapply collect_ready; eassumption).
  destruct (inside node) eqn:Hi; [|reflexivity].
  destruct (inside_fed Hi) as (p & Hp & Hpi).
  rewrite forallb_forall in Hready. specialize (Hready p Hp).
  now rewrite (Hnl p node Hpi) in Hready.
Qed.

Lemma fold_set_keeps (node : nat) (l : list (nat * V)) :
  inside node = false ->
  forall pl : payload V,
    nothing_leaves inside pl ->
    nothing_leaves inside
      (fold_left (fun pl' sv => set_payload pl' node (fst sv) (snd sv)) l pl).
Proof.
  intros Hout. induction l as [|[s v] l IH]; intros pl Hnl; [assumption|].
  cbn [fold_left fst snd]. apply IH. intros u w Hu.
  rewrite set_payload_other.
  - now apply Hnl.
  - left. intros ->. congruence.
Qed.

Lemma update_keeps (pl pl' : payload V) (node : nat) (values : list V) :
  inside node = false ->
  nothing_leaves inside pl ->
  _update_successor_edge_information self pl node values = Ok pl' ->
  nothing_leaves inside pl'.
Proof.
  unfold _update_successor_edge_information. intros Hout Hnl Hup.
  destruct (get_sorted_node_successors self node) as [succs|e];
    [cbn [bind] in Hup|discriminate].
  injection Hup as <-. now apply fold_set_keeps.
Qed.

Lemma for_nodes_keeps (cs : list nat) : forall st st' : locals V,
  (forall node, In node cs -> inside node = false) ->
  nothing_leaves inside (edge_info st) ->
  for_nodes self method final cs st = Ok st' ->
  nothing_leaves inside (edge_info st') /\
  final_node_reached st' = final_node_reached st.
Proof.
  induction cs as [|node rest IH]; intros st st' Hcs Hnl Hfor.
  - cbn in Hfor. injection Hfor as <-. now split.
  - assert (Hnode : inside node = false) by (apply Hcs; now left).
    assert (Hne : node <> final) by congruence.
    rewrite for_nodes_first in Hfor by assumption.
    destruct (for_nodes self method final [node] st) as [st1|e] eqn:H1;
      [cbn [bind] in Hfor|discriminate].
    assert (H1' : nothing_leaves inside (edge_info st1) /\
                  final_node_reached st1 = final_node_reached st).
    { cbn [for_nodes] in H1.
      destruct (_get_predecessor_edge_information self (edge_info st) node)
        as [inputs|e]; [cbn [bind] in H1|discriminate].
      destruct (arguments inputs) as [args|e]; [cbn [bind] in H1|discriminate].
      destruct (try_method self method node args) as [r|e];
        [cbn [bind] in H1|discriminate].
      apply Nat.eqb_neq in Hne. rewrite Hne in H1. cbn [negb] in H1.
      destruct (_update_successor_edge_information self (edge_info st) node _)
        as [pl|e] eqn:Hup; [cbn [bind] in H1|discriminate].
      injection H1 as <-. cbn. split; [|reflexivity].
      eapply update_keeps; eassumption. }
    destruct H1' as [Hnl1 Hr1].
    destruct (IH st1 st') as [Hnl' Hr']; try assumption.
    + intros n Hn. apply Hcs. now right.
    + split; [assumption | congruence].
Qed.

Lemma while_keeps (k : nat) : forall (cs : list nat) (st st' : locals V),
  nothing_leaves inside (edge_info st) ->
  (forall node, In node cs -> inside node = false) ->
  fst (while_loop set_list self method final k cs st) = Ok st' ->
  final_node_reached st' = final_node_reached st.
Proof.
  induction k as [|k IH]; intros cs st st' Hnl Hcs Hw.
  - cbn in Hw. now injection Hw as <-.
  - destruct cs as [|c cs]; [cbn in Hw; now injection Hw as <-|].
    rewrite while_loop_round in Hw.
    destruct (for_nodes self method final (c :: cs) st) as [st1|e] eqn:Hfor;
      [|discriminate].
    destruct (@for_nodes_keeps (c :: cs) st st1 Hcs Hnl Hfor) as [Hnl1 Hr1].
    destruct (_unvisited_nodes_with_all_inputs set_list self (edge_info st1))
      as [cs1|e] eqn:Hfr; [|discriminate].
    rewrite (IH cs1 st1 st' Hnl1); [assumption | | assumption].
    eapply frontier_outside; eassumption.
Qed.

(** Entered with no value on an edge out of the set, the traversal does not
    return: it ends with an exception raised on its way or, the loop left,
    with the one that says the final node was not reached. *)
Lemma traverse_behind_cycle (pl : payload V) :
  output_node self = Ok final ->
  nothing_leaves inside pl ->
  (exists e, _traverse_graph set_list self method pl = Raise e) /\
  forall cs st,
    _unvisited_nodes_with_all_inputs set_list self pl = Ok cs ->
    fst (while_loop set_list self method final max_iter cs
           {| edge_info := pl; calculation_results := None;
              final_node_reached := false |}) = Ok st ->
    _traverse_graph set_list self method pl = Raise (ValueError CouldntReach).
Proof.
  intros Hout Hnl.
  assert (Hleft : forall cs st,
    _unvisited_nodes_with_all_inputs set_list self pl = Ok cs ->
    fst (while_loop set_list self method final max_iter cs
           {| edge_info := pl; calculation_results := None;
              final_node_reached := false |}) = Ok st ->
    _traverse_graph set_list self method pl = Raise (ValueError CouldntReach)).
  { intros cs st Hfr Hw. eapply traverse_not_reached; try eassumption.
    eapply while_keeps in Hw;
      [exact Hw | exact Hnl | eapply frontier_outside; eassumption]. }
  split; [|exact Hleft].
  destruct (_unvisited_nodes_with_all_inputs set_list self pl) as [cs|e] eqn:Hfr.
  - destruct (fst (while_loop set_list self method final max_iter cs
                     {| edge_info := pl; calculation_results := None;
                        final_node_reached := false |})) as [st|e] eqn:Hw.
    + eexists. now apply (Hleft cs st).
    + exists e. eapply traverse_raised; eassumption.
  - exists e. unfold _traverse_graph. rewrite Hout; cbn [bind].
    now rewrite Hfr.
Qed.

(** A node of the set has a predecessor, so it is not an input node, and
    seeding puts nothing on its outgoing edges. *)
Lemma seed_keeps (first_call : nat -> result V) (st pl' : payload V) :
  seed self first_call (input_nodes self) (_clear_edge_info st) = Ok pl' ->
  nothing_leaves inside pl'.
Proof.
  intros Hseed u w Hu.
  erewrite seed_elsewhere; [reflexivity | exact Hseed |].
  left. unfold input_nodes. rewrite filter_In. intros [_ Hlen].
  destruct (inside_fed Hu) as (p & Hp & _).
  unfold predecessors in Hp. destruct (pred (G self) u); [destruct Hp|].
  discriminate Hlen.
Qed.

End BehindCycle.

(** C8, as the code has it: when the output node lies on a cycle or
    downstream of one, being in a set of nodes each of which has a
    predecessor in the set, neither pass returns: each ends with an
    exception, and with the one that says the final node was not reached
    whenever seeding and the loop went through without one. The loop runs
    one round for each iteration it uses up, at most [max_iter] rounds: it
    ends after [max_iter] rounds, or earlier for want of computable nodes or
    with the exception of the round that raised. *)
Theorem pass_behind_cycle_fails (self : CompositeCalculation) (pd : kernel)
    (inside : nat -> bool) (final : nat)
    (Hout : output_node self = Ok final)
    (Hfinal : inside final = true)
    (Hfed : fed_from_within self inside) :
  (forall (st : payload object) (input_data : DataFrame),
     (exists e, compute set_list self pd st input_data = Raise e) /\
     (forall pl cs l,
        seed self (compute_input self pd input_data) (input_nodes self)
             (_clear_edge_info st) = Ok pl ->
        _unvisited_nodes_with_all_inputs set_list self pl = Ok cs ->
        fst (while_loop set_list self (nodes.compute pd) final max_iter cs
               {| edge_info := pl; calculation_results := None;
                  final_node_reached := false |}) = Ok l ->
        compute set_list self pd st input_data =
          Raise (ValueError CouldntReach)))
  /\
  (forall (st : payload frequencies.FreqStr)
          (input_frequencies : string -> option frequencies.FreqStr),
     (exists e,
        parse_frequencies set_list self st input_frequencies = Raise e) /\
     (forall pl cs l,
        seed self (output_frequency_input self input_frequencies)
             (input_nodes self) (_clear_edge_info st) = Ok pl ->
        _unvisited_nodes_with_all_inputs set_list self pl = Ok cs ->
        fst (while_loop set_list self nodes.output_frequency final max_iter cs
               {| edge_info := pl; calculation_results := None;
                  final_node_reached := false |}) = Ok l ->
        parse_frequencies set_list self st input_frequencies =
          Raise (ValueError CouldntReach)))
  /\
  (forall (V : Type) (method : Calculation -> list V -> result V)
          (cs : list nat) (l : locals V),
     ran_rounds set_list self method final max_iter cs l
       (while_loop set_list self method final max_iter cs l)).
Proof.
  split; [|split].
  - intros st input_data. unfold compute.
    destruct (seed self (compute_input self pd input_data) (input_nodes self)
                   (_clear_edge_info st)) as [pl|e] eqn:Hseed; cbn [bind].
    + destruct (@traverse_behind_cycle self _ (nodes.compute pd) inside final
                  Hfed Hfinal pl Hout) as [Hfails Hleft].
      { eapply seed_keeps; eassumption. }
      split; [exact Hfails|].
      intros pl' cs l Hpl. injection Hpl as <-. apply Hleft.
    + split; [now exists e | discriminate].
  - intros st input_frequencies. unfold parse_frequencies.
    destruct (seed self (output_frequency_input self input_frequencies)
                   (input_nodes self) (_clear_edge_info st))
      as [pl|e] eqn:Hseed; cbn [bind].
    + destruct (@traverse_behind_cycle self _ nodes.output_frequency inside
                  final Hfed Hfinal pl Hout) as [Hfails Hleft].
      { eapply seed_keeps; eassumption. }
      split; [exact Hfails|].
      intros pl' cs l Hpl. injection Hpl as <-. apply Hleft.
    + split; [now exists e | discriminate].
  - intros V method cs l. apply while_loop_rounds.
Qed.

(** *** Particular graphs *)

(** A cycle that the output node does not depend on is no obstacle. *)
Lemma cycle_aside_pass (pd : kernel) (st : payload object) :
  compute set_list graph_cycle_aside pd st table_A123 =
    Ok (PyList [PSeries {| name := Some "X"%string; values := values_1_2_3 |}]).
Proof. pass_returns. Qed.

(** The output node of a chain is evaluated in the round of its distance
    from the input: in the tenth round at the latest, or never. *)
Lemma chain_10_pass (st : payload frequencies.FreqStr)
    (f : frequencies.FreqStr) :
  parse_frequencies set_list (graph_chain 10) st (every_input f) =
    Ok (PyList [f]).
Proof. pass_returns. Qed.


(** An input with two successors has its value on the edge to the first
    one only. *)
Lemma fan_out_seed (pd : kernel) (st : payload object) :
  exists pl,
    seed graph_fan_out (compute_input graph_fan_out pd table_A123)
         (input_nodes graph_fan_out) (_clear_edge_info st) = Ok pl /\
    pl 0 1 <> None /\ pl 0 2 = None.
Proof. eexists. split; [vm_compute; reflexivity|]. now split. Qed.

(** The arity [TypeError] of a handler, and the [TypeError] of the type
    check of [compute], leave the loop as they are. *)
Lemma lone_subtract_pass (st : payload frequencies.FreqStr)
    (f : frequencies.FreqStr) :
  exists pl,
    seed graph_lone_subtract
         (output_frequency_input graph_lone_subtract (every_input f))
         (input_nodes graph_lone_subtract) (_clear_edge_info st) = Ok pl /\
    traverse_raises set_list graph_lone_subtract nodes.output_frequency pl
      1 (TypeError (AcceptsExactly 2)) /\
    parse_frequencies set_list graph_lone_subtract st (every_input f) =
      Raise (TypeError (AcceptsExactly 2)).
Proof.
  eexists. split; [vm_compute; reflexivity|]. split.
  - exists 1, [1]. split; [vm_compute; reflexivity|]. split; [frontier|].
    apply while_raises_now. eapply for_raises_here; vm_compute; reflexivity.
  - eapply parse_seeded; [vm_compute; reflexivity|].
    eapply traverse_raised; [vm_compute; reflexivity | frontier |].
    apply while_raised. vm_compute; reflexivity.
Qed.

Lemma filter_out_pass (pd : kernel) (st : payload object) :
  exists pl,
    seed graph_filter_out (compute_input graph_filter_out pd table_A123)
         (input_nodes graph_filter_out) (_clear_edge_info st) = Ok pl /\
    traverse_raises set_list graph_filter_out (nodes.compute pd) pl
      1 (TypeError (InputIsNotOfType "Series")) /\
    compute set_list graph_filter_out pd st table_A123 =
      Raise (TypeError (InputIsNotOfType "Series")).
Proof.
  eexists. split; [vm_compute; reflexivity|]. split.
  - exists 1, [1]. split; [vm_compute; reflexivity|]. split; [frontier|].
    apply while_raises_now. eapply for_raises_here; vm_compute; reflexivity.
  - eapply compute_seeded; [vm_compute; reflexivity|].
    eapply traverse_raised; [vm_compute; reflexivity | frontier |].
    apply while_raised. vm_compute; reflexivity.
Qed.

End Engine.

(** ** The statements at particular inputs *)

Section Instances.

Import pandas nodes graphs examples course.

Lemma insertion_order_perm (l : list nat) : Permutation (insertion_order l) l.
Proof. apply Permutation_refl. Qed.

(** C1, as stated: [compute] does not return the bare series. *)
Lemma compute_input_output_not_bare :
  ~ exists (set_list : list nat -> list nat) (pd : kernel)
           (st : payload object),
      (forall l, Permutation (set_list l) l) /\
      compute set_list graph_in_out pd st table_A123 =
        Ok (Single (PSeries {| name := Some "X"%string;
                               values := values_1_2_3 |})).
Proof.
  intros (set_list & pd & st & Hperm & H).
  rewrite (@in_out_pass set_list Hperm pd st) in H. discriminate H.
Qed.

Lemma compute_input_output_witness :
  (forall l, Permutation (insertion_order l) l) /\
  compute insertion_order graph_in_out plain_kernel nothing_staged table_A123 =
    Ok (PyList [PSeries {| name := Some "X"%string; values := values_1_2_3 |}]).
Proof.
  split; [exact insertion_order_perm|].
  exact (@compute_input_output insertion_order insertion_order_perm
           plain_kernel nothing_staged).
Defined.



(** C4, as stated: the second outgoing edge of an input node with two
    successors holds nothing after seeding. *)
Lemma fan_out_second_edge_empty :
  In 0 (input_nodes graph_fan_out) /\
  successors (G graph_fan_out) 0 = [1; 2] /\
  exists pl,
    seed graph_fan_out (compute_input graph_fan_out plain_kernel table_A123)
         (input_nodes graph_fan_out) (_clear_edge_info nothing_staged) = Ok pl /\
    pl 0 2 = None.
Proof.
  split; [now left|]. split; [reflexivity|].
  destruct (fan_out_seed plain_kernel nothing_staged) as (pl & Hseed & _ & H).
  now exists pl.
Qed.

Lemma seed_stages_first_successor_witness :
  seed graph_in_out (compute_input graph_in_out plain_kernel table_A123)
       (input_nodes graph_in_out) (_clear_edge_info nothing_staged) =
    Ok staged_A123 /\
  In 0 (input_nodes graph_in_out) /\
  exists v,
    nodes.compute plain_kernel (obj graph_in_out 0) [PFrame table_A123] = Ok v /\
    forall s rest, successors (G graph_in_out) 0 = s :: rest ->
      staged_A123 0 s = Some v /\ forall s', s' <> s -> staged_A123 0 s' = None.
Proof.
  assert (Hseed : seed graph_in_out
                    (compute_input graph_in_out plain_kernel table_A123)
                    (input_nodes graph_in_out) (_clear_edge_info nothing_staged)
                  = Ok staged_A123) by reflexivity.
  assert (Hin : In 0 (input_nodes graph_in_out)) by (now left).
  split; [exact Hseed|]. split; [exact Hin|].
  exact (proj1 (@seed_stages_first_successor graph_in_out plain_kernel
                  table_A123 (every_input frequencies.M))
               nothing_staged staged_A123 0 Hseed Hin).
Defined.

(** C7, as stated: a [TypeError] raised by a node in the loop ends the pass
    as it is, not inside an exception that names the node. *)
Lemma type_error_not_wrapped :
  (forall set_list : list nat -> list nat,
     (forall l, Permutation (set_list l) l) ->
     exists pl,
       seed graph_lone_subtract
            (output_frequency_input graph_lone_subtract
               (every_input frequencies.M))
            (input_nodes graph_lone_subtract)
            (_clear_edge_info nothing_staged) = Ok pl /\
       traverse_raises set_list graph_lone_subtract nodes.output_frequency pl
         1 (TypeError (AcceptsExactly 2)) /\
       parse_frequencies set_list graph_lone_subtract nothing_staged
                         (every_input frequencies.M) =
         Raise (TypeError (AcceptsExactly 2)))
  /\
  (forall set_list : list nat -> list nat,
     (forall l, Permutation (set_list l) l) ->
     exists pl,
       seed graph_filter_out
            (compute_input graph_filter_out plain_kernel table_A123)
            (input_nodes graph_filter_out)
            (_clear_edge_info nothing_staged) = Ok pl /\
       traverse_raises set_list graph_filter_out (nodes.compute plain_kernel)
         pl 1 (TypeError (InputIsNotOfType "Series")) /\
       compute set_list graph_filter_out plain_kernel nothing_staged
               table_A123 =
         Raise (TypeError (InputIsNotOfType "Series"))).
Proof.
  split; intros set_list Hperm.
  - exact (@lone_subtract_pass set_list Hperm nothing_staged frequencies.M).
  - exact (@filter_out_pass set_list Hperm plain_kernel nothing_staged).
Qed.

Lemma subtract_M_Q_raises :
  traverse_raises insertion_order (init (objects_subtract 0) [edge_A; edge_B])
    nodes.output_frequency staged_M_Q
    2 (ValueError (NeedsIdentical ["M"; "Q"]%string)).
Proof.
  exists 2, [2]. split; [reflexivity|]. split; [reflexivity|].
  apply while_raises_now. eapply for_raises_here; reflexivity.
Qed.

Lemma node_failure_ends_pass_witness :
  traverse_raises insertion_order (init (objects_subtract 0) [edge_A; edge_B])
    nodes.output_frequency staged_M_Q
    2 (ValueError (NeedsIdentical ["M"; "Q"]%string)) /\
  _traverse_graph insertion_order (init (objects_subtract 0) [edge_A; edge_B])
    nodes.output_frequency staged_M_Q =
    Raise (ValueError (ProblemOccured 2 (NeedsIdentical ["M"; "Q"]%string))).
Proof.
  split; [exact subtract_M_Q_raises|].
  exact (proj1 (proj2 (@node_failure_ends_pass insertion_order
                         (init (objects_subtract 0) [edge_A; edge_B])
                         plain_kernel 2
                         (ValueError (NeedsIdentical ["M"; "Q"]%string))))
               staged_M_Q subtract_M_Q_raises).
Defined.

(** C8, as stated: beside a cycle that the output node does not depend on,
    the pass returns. *)
Lemma cycle_aside_returns :
  output_node graph_cycle_aside = Ok 1 /\
  In (2, 3, no_attrs) (edges (G graph_cycle_aside)) /\
  In (3, 2, no_attrs) (edges (G graph_cycle_aside)) /\
  forall set_list : list nat -> list nat,
    (forall l, Permutation (set_list l) l) ->
    compute set_list graph_cycle_aside plain_kernel nothing_staged table_A123 =
      Ok (PyList [PSeries {| name := Some "X"%string;
                             values := values_1_2_3 |}]).
Proof.
  split; [reflexivity|]. split; [cbn; tauto|]. split; [cbn; tauto|].
  intros set_list Hperm.
  exact (@cycle_aside_pass set_list Hperm plain_kernel nothing_staged).
Qed.

Lemma behind_the_cycle_fed :
  fed_from_within graph_cycle_before_output behind_the_cycle.
Proof.
  intros [|[|[|[|node]]]] H; try discriminate H;
    [exists 2 | exists 1 | exists 2]; split; cbn; tauto.
Qed.

Lemma pass_behind_cycle_fails_witness :
  (forall l, Permutation (insertion_order l) l) /\
  output_node graph_cycle_before_output = Ok 3 /\
  behind_the_cycle 3 = true /\
  fed_from_within graph_cycle_before_output behind_the_cycle /\
  compute insertion_order graph_cycle_before_output plain_kernel
          nothing_staged table_A123 = Raise (ValueError CouldntReach) /\
  exists e,
    parse_frequencies insertion_order graph_cycle_before_output
                      nothing_staged (every_input frequencies.M) = Raise e.
Proof.
  split; [exact insertion_order_perm|]. split; [reflexivity|].
  split; [reflexivity|]. split; [exact behind_the_cycle_fed|].
  pose (H := @pass_behind_cycle_fails insertion_order insertion_order_perm
               graph_cycle_before_output plain_kernel behind_the_cycle 3
               (eq_refl : output_node graph_cycle_before_output = Ok 3)
               (eq_refl : behind_the_cycle 3 = true) behind_the_cycle_fed).
  split.
  - refine (proj2 (proj1 H nothing_staged table_A123) _ [] _ _ _ _);
      reflexivity.
  - exact (proj1 (proj1 (proj2 H) nothing_staged (every_input frequencies.M))).
Defined.

End Instances.

(** * Further properties *)

(** ** Frequencies and input checks *)

Section MoreFrequencies.

Import frequencies.

Lemma numbervalue_inj (x y : FreqStr) : numbervalue x = numbervalue y -> x = y.
Proof. destruct x, y; cbn; intros H; try reflexivity; discriminate H. Qed.

(** X1: the four comparisons of [FreqStr] are those of a strict total order
    on the members: members of the same rank are the same member, any two
    members are comparable, [<] and [>], [<=] and [>=] mirror each other,
    each strict comparison is the negation of the opposite weak one, and
    [<=] is antisymmetric and transitive. *)
Theorem FreqStr_comparisons_total (x y : FreqStr) :
  (numbervalue x = numbervalue y <-> x = y) /\
  (lt x y = true \/ x = y \/ gt x y = true) /\
  lt x y = gt y x /\ le x y = ge y x /\
  lt x y = negb (ge x y) /\ gt x y = negb (le x y) /\
  (le x y = true -> le y x = true -> x = y) /\
  (forall z, le x y = true -> le y z = true -> le x z = true).
Proof.
  split; [split; [apply numbervalue_inj | now intros ->]|].
  split; [destruct x, y; cbn; tauto|].
  repeat split; try (destruct x, y; reflexivity).
  - destruct x, y; cbn; intros; try reflexivity; discriminate.
  - intros z. unfold le. rewrite !Z.leb_le. lia.
Qed.

Lemma len_set_le_1 (l : list FreqStr) :
  (len_set l <= 1)%nat <-> forall x y, In x l -> In y l -> x = y.
Proof.
  unfold len_set. split.
  - intros Hlen x y Hx Hy.
    destruct (FreqStr_eq_dec x y) as [|Hne]; [assumption|exfalso].
    assert (Hnd : NoDup [x; y]).
    { constructor; [intros [H|[]]; congruence|]. constructor; [easy|constructor]. }
    assert (Hincl : incl [x; y] (nodup FreqStr_eq_dec l)).
    { intros z [<-|[<-|[]]]; now apply nodup_In. }
    pose proof (NoDup_incl_length Hnd Hincl) as H. cbn in H. lia.
  - intros Heq. destruct l as [|f l]; [cbn; lia|].
    assert (Hincl : incl (nodup FreqStr_eq_dec (f :: l)) [f]).
    { intros z Hz. apply nodup_In in Hz. left. apply Heq; [now left|assumption]. }
    apply (NoDup_incl_length (NoDup_nodup _ _) Hincl).
Qed.

(** X2: [IdenticalFrequencies] checks the arity first, raising [TypeError]
    on a wrong number of inputs whatever they are. With the arity right it
    returns [f] exactly when [f] is the value of every input and there is
    one, raises the "needs identical frequencies" [ValueError] exactly when
    two inputs differ, and raises [IndexError] exactly on no input. *)
Theorem identical_frequencies_outcomes (n : option Z) (l : list FreqStr) :
  (forall k, n = Some k -> Z.of_nat (length l) <> k ->
     output_frequency (IdenticalFrequencies n) l =
       Raise (TypeError (AcceptsExactly k))) /\
  (n = None \/ n = Some (Z.of_nat (length l)) ->
     (forall f, output_frequency (IdenticalFrequencies n) l = Ok f <->
                In f l /\ forall x, In x l -> x = f) /\
     (output_frequency (IdenticalFrequencies n) l =
        Raise (ValueError (NeedsIdentical (map value l))) <->
      exists x y, In x l /\ In y l /\ x <> y) /\
     (output_frequency (IdenticalFrequencies n) l =
        Raise (IndexError (Builtin "tuple index out of range")) <-> l = [])).
Proof.
  split.
  - intros k -> Hk. cbn. unfold super_output_frequency. cbn.
    apply Z.eqb_neq in Hk. now rewrite Hk.
  - intros Harity.
    assert (Hsuper : super_output_frequency (IdenticalFrequencies n) l = Ok tt).
    { unfold super_output_frequency. cbn.
      destruct Harity as [->| ->]; [reflexivity|]. now rewrite Z.eqb_refl. }
    unfold output_frequency. rewrite Hsuper. cbn [bind].
    destruct (1 <? len_set l)%nat eqn:Hlen.
    + apply Nat.ltb_lt in Hlen.
      assert (Hdiff : exists x y, In x l /\ In y l /\ x <> y).
      { unfold len_set in Hlen.
        pose proof (NoDup_nodup FreqStr_eq_dec l) as Hnd.
        assert (Hin : forall z, In z (nodup FreqStr_eq_dec l) -> In z l)
          by (intros z; apply nodup_In).
        destruct (nodup FreqStr_eq_dec l) as [|x [|y r]]; cbn in Hlen; try lia.
        exists x, y. split; [apply Hin; now left|].
        split; [apply Hin; right; now left|].
        inversion Hnd as [|? ? Hx _]. intros ->. apply Hx. now left. }
      split; [|split].
      * intros f. split; [discriminate|]. intros [Hf Hall].
        destruct Hdiff as (x & y & Hx & Hy & Hne).
        rewrite (Hall x Hx), (Hall y Hy) in Hne. now destruct Hne.
      * split; [now intros _ | reflexivity].
      * split; [discriminate|]. intros ->. cbn in Hlen. lia.
    + apply Nat.ltb_ge in Hlen. rewrite len_set_le_1 in Hlen.
      destruct l as [|a l].
      * split; [|split].
        -- intros f. split; [discriminate|]. now intros [[] _].
        -- split; [discriminate|]. now intros (x & _ & [] & _).
        -- split; reflexivity.
      * split; [|split].
        -- intros f. unfold FreqStr_call. split.
           ++ intros H. injection H as <-. split; [now left|].
              intros x Hx. apply Hlen; [assumption|now left].
           ++ intros [Hf Hall]. f_equal. apply Hall. now left.
        -- split; [discriminate|]. intros (x & y & Hx & Hy & Hne).
           now destruct (Hne (Hlen x y Hx Hy)).
        -- split; discriminate.
Qed.

Lemma coarsest_value (f : FreqStr) (fs : list FreqStr) :
  output_frequency CoarsestFrequency (f :: fs) = Ok (max_from f fs).
Proof. cbn. now rewrite map_id. Qed.

Lemma finest_value (f : FreqStr) (fs : list FreqStr) :
  output_frequency FinestFrequency (f :: fs) = Ok (min_from f fs).
Proof. cbn. now rewrite map_id. Qed.

(** X3: [CoarsestFrequency] and [FinestFrequency] do not depend on the
    order of their inputs. *)
Theorem coarsest_finest_ignore_order (l l' : list FreqStr) :
  Permutation l l' ->
  output_frequency CoarsestFrequency l = output_frequency CoarsestFrequency l' /\
  output_frequency FinestFrequency l = output_frequency FinestFrequency l'.
Proof.
  intros Hperm. destruct l as [|f fs].
  - apply Permutation_nil in Hperm. now subst.
  - destruct l' as [|f' fs'];
      [apply Permutation_sym, Permutation_nil in Hperm; discriminate|].
    rewrite !coarsest_value, !finest_value.
    destruct (max_from_spec fs f) as [Hin Hle].
    destruct (max_from_spec fs' f') as [Hin' Hle'].
    destruct (min_from_spec fs f) as [Hmin Hge].
    destruct (min_from_spec fs' f') as [Hmin' Hge'].
    split; f_equal; apply numbervalue_inj.
    + pose proof (Hle' _ (Permutation_in _ Hperm Hin)).
      pose proof (Hle _ (Permutation_in _ (Permutation_sym Hperm) Hin')). lia.
    + pose proof (Hge' _ (Permutation_in _ Hperm Hmin)).
      pose proof (Hge _ (Permutation_in _ (Permutation_sym Hperm) Hmin')). lia.
Qed.

(** X4: a handler that returns a frequency returns one of its inputs,
    except [DownsampleFrequency], which returns its target and then only
    for a single input no coarser than the target; [PassthroughFrequency]
    returns it only for exactly that one input. *)
Theorem handler_output_source (h : FrequencyHandler) (l : list FreqStr)
    (o : FreqStr) :
  output_frequency h l = Ok o ->
  match h with
  | DownsampleFrequency target =>
      o = target /\
      exists f, l = [f] /\ (numbervalue f <= numbervalue target)%Z
  | PassthroughFrequency => l = [o]
  | _ => In o l
  end.
Proof.
  destruct h as [|n| | |target]; intros H.
  - destruct l as [|f [|g r]]; try discriminate H.
    cbn in H. now injection H as <-.
  - unfold output_frequency in H.
    destruct (super_output_frequency (IdenticalFrequencies n) l);
      [cbn [bind] in H|discriminate].
    destruct (1 <? len_set l)%nat; [discriminate|].
    destruct l as [|f r]; [discriminate|]. injection H as <-. now left.
  - destruct l as [|f fs]; [discriminate|]. rewrite coarsest_value in H.
    injection H as <-. apply max_from_spec.
  - destruct l as [|f fs]; [discriminate|]. rewrite finest_value in H.
    injection H as <-. apply min_from_spec.
  - destruct l as [|f [|g r]]; try discriminate H.
    cbn in H. unfold gt, FreqStr_call in H.
    destruct (Z.gtb_spec (numbervalue f) (numbervalue target));
      [discriminate|].
    injection H as <-. split; [reflexivity|]. exists f. split; [reflexivity|lia].
Qed.

End MoreFrequencies.

Section MoreInputs.

Import pandas inputs.

Lemma check_zip_repeat (t : pytype) (args : list object) :
  (check_zip args (flat_map (fun _ => [t]) args) = Ok tt <->
   Forall (fun x => isinstance x t = true) args) /\
  (~ Forall (fun x => isinstance x t = true) args ->
   check_zip args (flat_map (fun _ => [t]) args) =
     Raise (TypeError (InputIsNotOfType (type_name t)))).
Proof.
  induction args as [|x args [IH IH']]; cbn.
  - split; [split; constructor|]. intros H. destruct H. constructor.
  - destruct (isinstance x t) eqn:Hx; cbn.
    + split.
      * rewrite IH. split; [now constructor|]. now inversion 1.
      * intros H. apply IH'. intros Hall. apply H. now constructor.
    + split; [|reflexivity]. split; [discriminate|].
      inversion 1; congruence.
Qed.

Lemma check_inputs_wrong_count (self : CalcInput) (k : Z)
    (args : list object) :
  INPUT_N self = Some k -> Z.of_nat (length args) <> k ->
  check_inputs self args = Raise (ValueError (NumberOfInputsExpected k)).
Proof.
  unfold check_inputs, check_input_number. intros -> Hk.
  apply Z.eqb_neq in Hk. now rewrite Hk.
Qed.

(** X5: for a handler with one declared type, [check_inputs] tests the
    number of inputs before their types: a wrong number raises [ValueError]
    whatever the inputs are; with the number right (or none declared) the
    check passes exactly when every input is of the declared type, and
    raises [TypeError] otherwise. *)
Theorem check_inputs_count_then_types (N : option Z) (t : pytype)
    (args : list object) :
  (forall k, N = Some k -> Z.of_nat (length args) <> k ->
     check_inputs {| INPUT_N := N; INPUT_TYPES := [t] |} args =
       Raise (ValueError (NumberOfInputsExpected k))) /\
  (N = None \/ N = Some (Z.of_nat (length args)) ->
     (check_inputs {| INPUT_N := N; INPUT_TYPES := [t] |} args = Ok tt <->
      Forall (fun x => isinstance x t = true) args) /\
     (~ Forall (fun x => isinstance x t = true) args ->
      check_inputs {| INPUT_N := N; INPUT_TYPES := [t] |} args =
        Raise (TypeError (InputIsNotOfType (type_name t))))).
Proof.
  split.
  - intros k -> Hk. now apply check_inputs_wrong_count.
  - unfold check_inputs, check_input_number, check_input_types. cbn.
    intros Harity.
    assert (Hn : match N with
                 | Some n => if negb (Z.of_nat (length args) =? n)%Z
                             then Raise (ValueError (NumberOfInputsExpected n))
                             else Ok tt
                 | None => Ok tt
                 end = Ok tt).
    { destruct Harity as [->| ->]; [reflexivity|]. now rewrite Z.eqb_refl. }
    rewrite Hn. cbn [bind]. apply check_zip_repeat.
Qed.

(** X6: [SingleInput], whose declared type is [type], accepts no list of
    series or tables at all; it is the handler of [Aggregate], whose
    [compute] does not consult it and hands any single input to the
    resampling. *)
Theorem single_input_accepts_nothing (args : list object) :
  (exists e, check_inputs SingleInput args = Raise e) /\
  (forall x, check_inputs SingleInput [x] =
             Raise (TypeError (InputIsNotOfType "type"))) /\
  (forall f a, nodes.inputs_handler (nodes.Aggregate f a) = SingleInput) /\
  (forall pd f a x,
     nodes.compute pd (nodes.Aggregate f a) [x] = resample pd f a x).
Proof.
  split; [|split; [|split]].
  - destruct args as [|x [|y r]].
    + eexists; reflexivity.
    + destruct x; eexists; reflexivity.
    + eexists. apply check_inputs_wrong_count; [reflexivity|]. cbn [length]. lia.
  - now intros [s|d].
  - reflexivity.
  - reflexivity.
Qed.

End MoreInputs.

(** ** Column selection and arity *)

Section MoreNodes.

Import pandas nodes.

Variable pd : kernel.

Lemma getitem_found (cols : list (string * list float)) (key : string)
    (s : Series) :
  getitem cols key = Ok s -> name s = Some key /\ In (key, values s) cols.
Proof.
  induction cols as [|[c vs] cols IH]; cbn; [discriminate|].
  destruct (String.eqb_spec c key) as [->|Hne].
  - intros H. injection H as <-. cbn. split; [reflexivity|now left].
  - intros H. destruct (IH H). split; [assumption|now right].
Qed.

Lemma getitem_missing (cols : list (string * list float)) (key : string) :
  ~ In key (map fst cols) <-> getitem cols key = Raise (KeyError (Builtin key)).
Proof.
  induction cols as [|[c vs] cols IH]; cbn.
  - split; [reflexivity|]. now intros _ [].
  - destruct (String.eqb_spec c key) as [->|Hne].
    + split; [intros H; destruct H; now left | discriminate].
    + rewrite <- IH. tauto.
Qed.

Lemma getitem_outcomes (cols : list (string * list float)) (key : string) :
  (exists s, getitem cols key = Ok s) \/
  getitem cols key = Raise (KeyError (Builtin key)).
Proof.
  induction cols as [|[c vs] cols IH]; cbn; [now right|].
  destruct (String.eqb c key); [left; now eexists | assumption].
Qed.

(** X7: on a table with distinct column names, [Filter([name],
    collapse=True)] computes what [Input(name)] computes: when [name] is a
    column, both return the series with that name and the values of that
    column; when it is not, both raise a [KeyError]; and given anything but
    one table, both raise a [TypeError]. *)
Theorem filter_collapse_is_input (ts_name : string) (d : DataFrame)
    (Hcolumns : NoDup (map fst (columns d))) :
  (In ts_name (map fst (columns d)) ->
   exists vs,
     In (ts_name, vs) (columns d) /\
     compute pd (Filter [ts_name] true) [PFrame d] =
       Ok (PSeries {| name := Some ts_name; values := vs |}) /\
     compute pd (Input ts_name) [PFrame d] =
       Ok (PSeries {| name := Some ts_name; values := vs |}))
  /\
  (~ In ts_name (map fst (columns d)) ->
   exists m1 m2,
     compute pd (Filter [ts_name] true) [PFrame d] = Raise (KeyError m1) /\
     compute pd (Input ts_name) [PFrame d] = Raise (KeyError m2))
  /\
  (forall args : list object,
     (forall d', args <> [PFrame d']) ->
     exists m1 m2,
       compute pd (Filter [ts_name] true) args = Raise (TypeError m1) /\
       compute pd (Input ts_name) args = Raise (TypeError m2)).
Proof.
  split; [|split].
  - intros Hin.
    destruct (getitem_outcomes (columns d) ts_name) as [(s & Hs)|Hmiss];
      [|apply getitem_missing in Hmiss; now destruct Hmiss].
    destruct (getitem_found _ _ Hs) as [Hname Hvs].
    destruct s as [n vs]. cbn in Hname, Hvs. subst n.
    exists vs. split; [exact Hvs|]. cbn. rewrite Hs. cbn. now split.
  - intros Hmiss. apply getitem_missing in Hmiss.
    exists (Builtin ts_name), (Builtin ts_name). cbn. rewrite Hmiss. now split.
  - intros args Hargs.
    destruct args as [|[s|d'] [|y r]];
      try (now destruct (Hargs d')); cbn; now eexists _, _.
Qed.

Lemma getitems_names (cols : list (string * list float)) (names : list string) :
  forall cols', getitems cols names = Ok cols' ->
    map fst cols' = names /\
    forall k, In k names -> getitem cols' k = getitem cols k.
Proof.
  induction names as [|k0 ks IH]; cbn; intros cols' H.
  - injection H as <-. now split.
  - destruct (getitem cols k0) as [s0|] eqn:H0; [cbn [bind] in H|discriminate].
    destruct (getitems cols ks) as [rest|] eqn:Hrest;
      [cbn [bind] in H|discriminate].
    injection H as <-. destruct (IH rest eq_refl) as [Hfst Hget].
    split; [cbn; now f_equal|].
    intros k Hk. cbn. destruct (String.eqb_spec k0 k) as [->|Hne].
    + rewrite H0. apply getitem_found in H0. destruct s0 as [n vs].
      cbn in *. destruct H0 as [-> _]. reflexivity.
    + destruct Hk as [Hk|Hk]; [congruence|]. now apply Hget.
Qed.

Lemma getitems_in (cols : list (string * list float)) (names : list string) :
  forall cols', getitems cols names = Ok cols' ->
    forall k vs, In (k, vs) cols' -> In (k, vs) cols.
Proof.
  induction names as [|k0 ks IH]; cbn; intros c Hg k vs Hin.
  - injection Hg as <-. destruct Hin.
  - destruct (getitem cols k0) as [s0|] eqn:H0; [cbn [bind] in Hg|discriminate].
    destruct (getitems cols ks) as [rest|]; [cbn [bind] in Hg|discriminate].
    injection Hg as <-. destruct Hin as [Hin|Hin].
    + injection Hin as <- <-. now apply getitem_found in H0.
    + now apply (IH rest).
Qed.

Lemma getitems_ext (c1 c2 : list (string * list float)) (names : list string) :
  (forall k, In k names -> getitem c1 k = getitem c2 k) ->
  getitems c1 names = getitems c2 names.
Proof.
  induction names as [|k ks IH]; cbn; intros H; [reflexivity|].
  rewrite (H k (or_introl eq_refl)), IH; [reflexivity|].
  intros k' Hk'. apply H. now right.
Qed.

Lemma getitems_succeeds (cols : list (string * list float))
    (names : list string) :
  (exists cols', getitems cols names = Ok cols') <->
  incl names (map fst cols).
Proof.
  induction names as [|k ks IH]; cbn.
  - split; [intros _ x []|]. intros _. now eexists.
  - split.
    + intros (cols' & H).
      destruct (getitem cols k) as [s|] eqn:Hk; [cbn [bind] in H|discriminate].
      destruct (getitems cols ks) as [rest|]; [|discriminate].
      apply getitem_found in Hk. destruct Hk as [_ Hk].
      intros x [<-|Hx].
      * apply in_map_iff. now exists (k, values s).
      * apply IH; [now eexists|assumption].
    + intros Hincl.
      destruct (getitem_outcomes cols k) as [(s & ->)|Hmiss].
      * cbn [bind]. destruct IH as [_ IH].
        destruct IH as (rest & ->); [|cbn [bind]; now eexists].
        intros x Hx. apply Hincl. now right.
      * apply getitem_missing in Hmiss. destruct Hmiss.
        apply Hincl. now left.
Qed.

Lemma getitems_fails (cols : list (string * list float))
    (names : list string) :
  ~ incl names (map fst cols) ->
  exists k, In k names /\ ~ In k (map fst cols) /\
    getitems cols names = Raise (KeyError (Builtin k)).
Proof.
  induction names as [|k0 ks IH]; intros Hnot;
    [destruct Hnot; intros x []|].
  cbn. destruct (getitem_outcomes cols k0) as [(s & Hs)|Hmiss].
  - rewrite Hs. cbn [bind]. destruct IH as (k & Hk & Hmiss & Hraise).
    + intros Hincl. apply Hnot. intros x [<-|Hx]; [|now apply Hincl].
      apply getitem_found in Hs. apply in_map_iff.
      exists (k0, values s). now split.
    + exists k. split; [now right|]. split; [assumption|]. now rewrite Hraise.
  - exists k0. split; [now left|]. split; [now apply getitem_missing|].
    now rewrite Hmiss.
Qed.

(** X8: on a table with distinct column names and for distinct [names],
    [Filter(names)] without collapse returns a table exactly when every name
    is a column of the given table; the table returned has the columns
    [names], in that order, each a column of the given table, and filtering
    it again returns it unchanged. With a name missing, the call raises
    [KeyError] for a missing name. *)
Theorem filter_projects (names : list string) (d : DataFrame) :
  NoDup (map fst (columns d)) ->
  NoDup names ->
  ((exists cols',
      compute pd (Filter names false) [PFrame d] =
        Ok (PFrame {| columns := cols' |})) <->
   incl names (map fst (columns d))) /\
  (forall cols',
     compute pd (Filter names false) [PFrame d] =
       Ok (PFrame {| columns := cols' |}) ->
     map fst cols' = names /\
     (forall k vs, In (k, vs) cols' -> In (k, vs) (columns d)) /\
     compute pd (Filter names false) [PFrame {| columns := cols' |}] =
       Ok (PFrame {| columns := cols' |})) /\
  (~ incl names (map fst (columns d)) ->
   exists k, In k names /\ ~ In k (map fst (columns d)) /\
     compute pd (Filter names false) [PFrame d] = Raise (KeyError (Builtin k))).
Proof.
  intros _ _.
  assert (Hc : forall d', compute pd (Filter names false) [PFrame d'] =
     (filtered <- getitems (columns d') names ;;
      Ok (PFrame {| columns := filtered |}))).
  { intros d'. cbn. destruct (getitems (columns d') names); [cbn|reflexivity].
    now rewrite andb_false_r. }
  split; [|split].
  - rewrite Hc, <- getitems_succeeds. split.
    + intros (cols' & H).
      destruct (getitems (columns d) names); [now eexists|discriminate].
    + intros (cols' & ->). now eexists.
  - intros cols' H. rewrite Hc in H.
    destruct (getitems (columns d) names) as [c|] eqn:Hg;
      [cbn [bind] in H|discriminate].
    injection H as <-. destruct (@getitems_names (columns d) names c Hg) as [Hfst Hget].
    split; [assumption|]. split.
    + intros k vs Hin. eapply getitems_in; eassumption.
    + rewrite Hc. cbn [columns].
      rewrite (@getitems_ext c (columns d) names Hget), Hg. reflexivity.
  - intros Hnot. rewrite Hc.
    destruct (@getitems_fails (columns d) names Hnot) as (k & Hk & Hmiss & ->).
    exists k. now repeat split.
Qed.

(** X9: given another number of inputs than two, [Subtract.compute] raises
    the [ValueError] of the input check, and the frequency handler of
    [Subtract] raises [TypeError]. *)
Theorem subtract_arity_errors (const_float : float) :
  (forall args : list object, length args <> 2 ->
     compute pd (Subtract const_float) args =
       Raise (ValueError (NumberOfInputsExpected 2))) /\
  (forall fs : list frequencies.FreqStr, length fs <> 2 ->
     output_frequency (Subtract const_float) fs =
       Raise (TypeError (AcceptsExactly 2))).
Proof.
  split.
  - intros args Hlen. cbn.
    unfold check_inputs, inputs.check_inputs, inputs.check_input_number. cbn.
    destruct (Z.eqb_spec (Z.of_nat (length args)) 2); [lia|reflexivity].
  - intros fs Hlen. cbn. unfold frequencies.super_output_frequency. cbn.
    destruct (Z.eqb_spec (Z.of_nat (length fs)) 2); [lia|reflexivity].
Qed.

End MoreNodes.

(** ** The order of the predecessors *)

Section MoreOrdering.

Import pandas nodes graphs notions.

Lemma insert_sorted_perm (x : nat * Z) (l : list (nat * Z)) :
  Permutation (insert_sorted x l) (x :: l).
Proof.
  induction l as [|y l IH]; cbn; [reflexivity|].
  destruct (snd x <=? snd y)%Z; [reflexivity|].
  rewrite IH. apply perm_swap.
Qed.

Lemma sorted_perm (l : list (nat * Z)) : Permutation (sorted l) l.
Proof.
  induction l as [|x l IH]; cbn; [reflexivity|].
  rewrite insert_sorted_perm. now constructor.
Qed.

Lemma insert_sorted_sorted (x : nat * Z) (l : list (nat * Z)) :
  StronglySorted by_index l -> StronglySorted by_index (insert_sorted x l).
Proof.
  induction 1 as [|y l Hl IH Hy]; cbn.
  - constructor; constructor.
  - destruct (Z.leb_spec (snd x) (snd y)) as [Hle|Hgt].
    + constructor; [now constructor|]. constructor; [assumption|].
      eapply Forall_impl; [|exact Hy]. unfold by_index. intros a Ha. lia.
    + constructor; [assumption|].
      eapply Permutation_Forall; [symmetry; apply insert_sorted_perm|].
      constructor; [unfold by_index; lia | assumption].
Qed.

Lemma sorted_sorted (l : list (nat * Z)) : StronglySorted by_index (sorted l).
Proof.
  induction l as [|x l IH]; cbn; [constructor|].
  now apply insert_sorted_sorted.
Qed.

Lemma same_index_same_item (l : list (nat * Z)) (x y : nat * Z) :
  NoDup (map snd l) -> In x l -> In y l -> snd x = snd y -> x = y.
Proof.
  induction l as [|z l IH]; cbn; [easy|].
  intros Hnd Hx Hy Heq. inversion Hnd as [|? ? Hz Hnd']; subst.
  destruct Hx as [->|Hx], Hy as [->|Hy]; [reflexivity| | |now apply IH].
  - destruct Hz. rewrite Heq. now apply in_map.
  - destruct Hz. rewrite <- Heq. now apply in_map.
Qed.

Lemma sorted_unique (a : list (nat * Z)) : forall b,
  StronglySorted by_index a -> StronglySorted by_index b ->
  Permutation a b -> NoDup (map snd a) -> a = b.
Proof.
  induction a as [|x a IH]; intros b Ha Hb Hperm Hnd.
  - apply Permutation_nil in Hperm. now subst.
  - destruct b as [|y b];
      [apply Permutation_sym, Permutation_nil in Hperm; discriminate|].
    inversion Ha as [|? ? Ha' Hx]; subst.
    inversion Hb as [|? ? Hb' Hy]; subst.
    assert (Hxy : x = y).
    { apply (@same_index_same_item (x :: a)); [assumption|now left| |].
      - apply (Permutation_in _ (Permutation_sym Hperm)). now left.
      - assert (Hxb : In x (y :: b)) by (apply (Permutation_in _ Hperm); now left).
        assert (Hya : In y (x :: a))
          by (apply (Permutation_in _ (Permutation_sym Hperm)); now left).
        rewrite Forall_forall in Hx, Hy. unfold by_index in *.
        destruct Hxb as [->|Hxb]; [reflexivity|].
        destruct Hya as [->|Hya]; [reflexivity|].
        specialize (Hx _ Hya). specialize (Hy _ Hxb). lia. }
    subst y. f_equal. apply IH; try assumption.
    + eapply Permutation_cons_inv; eassumption.
    + now inversion Hnd.
Qed.

Lemma index_items_eq (key : string) (get : attrs -> option Z)
    (l : list (nat * attrs)) :
  index_items key get l =
    if forallb (has_index get) l then Ok (map (indexed get) l)
    else Raise (KeyError (Builtin key)).
Proof.
  induction l as [|[node args] l IH]; cbn; [reflexivity|].
  unfold has_index at 1, indexed at 1. cbn.
  destruct (get args); [|reflexivity]. rewrite IH.
  now destruct (forallb (has_index get) l).
Qed.

Lemma forallb_perm {T : Type} (f : T -> bool) (l l' : list T) :
  Permutation l l' -> forallb f l = forallb f l'.
Proof.
  induction 1; cbn; try congruence.
  - now rewrite !andb_assoc, (andb_comm (f y)).
Qed.

Lemma pred_in (g : DiGraph) (node p : nat) (dd : attrs) :
  In (p, dd) (pred g node) <-> In (p, node, dd) (edges g).
Proof.
  unfold pred. rewrite in_flat_map. split.
  - intros ([[u v] d] & He & Hin). destruct (Nat.eqb_spec v node); [|easy].
    destruct Hin as [Hin|[]]. injection Hin as <- <-. now subst.
  - intros He. exists (p, node, dd). split; [assumption|].
    rewrite Nat.eqb_refl. now left.
Qed.

Lemma pred_perm (g1 g2 : DiGraph) (node : nat) :
  Permutation (edges g1) (edges g2) ->
  Permutation (pred g1 node) (pred g2 node).
Proof. intros H. unfold pred. now apply Permutation_flat_map. Qed.

Variable self : CompositeCalculation.

(** X11: for a node that checks the order of its inputs,
    [get_sorted_node_predecessors] returns the predecessors, each once, in
    ascending order of the [input_idx] of their edges, or raises [KeyError]:
    the latter exactly when an edge into the node has no [input_idx]. *)
Theorem sorted_predecessors_by_input_idx (node : nat) :
  check_input_order (obj self node) = true ->
  (forall ps, get_sorted_node_predecessors self node = Ok ps ->
     Permutation ps (predecessors (G self) node) /\
     exists items,
       ps = map fst items /\ StronglySorted by_index items /\
       forall p i, In (p, i) items ->
         exists dd, In (p, node, dd) (edges (G self)) /\ input_idx dd = Some i)
  /\
  (get_sorted_node_predecessors self node =
     Raise (KeyError (Builtin "input_idx")) <->
   exists p dd, In (p, node, dd) (edges (G self)) /\ input_idx dd = None)
  /\
  ((exists ps, get_sorted_node_predecessors self node = Ok ps) \/
   get_sorted_node_predecessors self node =
     Raise (KeyError (Builtin "input_idx"))).
Proof.
  intros Hord. unfold get_sorted_node_predecessors. rewrite Hord.
  rewrite index_items_eq.
  destruct (forallb (has_index input_idx) (pred (G self) node)) eqn:Hall;
    cbn [bind].
  - rewrite forallb_forall in Hall. split; [|split].
    + intros ps H. injection H as <-. split.
      * unfold predecessors. rewrite sorted_perm, map_map. reflexivity.
      * exists (sorted (map (indexed input_idx) (pred (G self) node))).
        split; [reflexivity|]. split; [apply sorted_sorted|].
        intros p i Hin. apply (Permutation_in _ (sorted_perm _)) in Hin.
        apply in_map_iff in Hin. destruct Hin as ([q dd] & Heq & Hq).
        specialize (Hall _ Hq). unfold has_index, indexed in *. cbn in *.
        destruct (input_idx dd) as [j|] eqn:Hj; [|discriminate].
        injection Heq as <- <-. exists dd. split; [now apply pred_in|assumption].
    + split; [discriminate|]. intros (p & dd & Hin & Hnone).
      apply pred_in in Hin. specialize (Hall _ Hin).
      unfold has_index in Hall. cbn in Hall. now rewrite Hnone in Hall.
    + left. now eexists.
  - split; [|split].
    + discriminate.
    + split; [intros _|reflexivity].
      assert (Hex : existsb (fun x => negb (has_index input_idx x))
                      (pred (G self) node) = true).
      { clear Hord. induction (pred (G self) node) as [|x l IH];
          [discriminate|]. cbn in *.
        destruct (has_index input_idx x); cbn in *; [now apply IH|reflexivity]. }
      apply existsb_exists in Hex. destruct Hex as ([p dd] & Hin & Hno).
      exists p, dd. split; [now apply pred_in|].
      unfold has_index in Hno. cbn in Hno. now destruct (input_idx dd).
    + now right.
Qed.

End MoreOrdering.

Section EdgeOrder.

Import pandas nodes graphs notions.

Lemma nodup_indexed (l : list (nat * attrs)) :
  NoDup (map (fun item : nat * attrs => input_idx (snd item)) l) ->
  (forall x, In x l -> has_index input_idx x = true) ->
  NoDup (map snd (map (indexed input_idx) l)).
Proof.
  rewrite map_map. induction l as [|x l IH]; cbn; intros Hnd Hall;
    [constructor|].
  inversion Hnd as [|? ? Hx Hnd']; subst. constructor.
  - intros Hin. apply Hx. apply in_map_iff in Hin.
    destruct Hin as (y & Hy & Hyl). apply in_map_iff. exists y.
    split; [|assumption].
    pose proof (Hall x (or_introl eq_refl)) as H1.
    pose proof (Hall y (or_intror Hyl)) as H2.
    unfold has_index in H1, H2.
    destruct (input_idx (snd x)), (input_idx (snd y)); try discriminate.
    now f_equal.
  - apply IH; [assumption|]. intros y Hy. apply Hall. now right.
Qed.

(** X12: for a node that checks the order of its inputs and whose incoming
    edges have different [input_idx], two graphs with the same edges in
    different orders give the same sorted predecessors. *)
Theorem sorted_predecessors_ignore_edge_order
    (objects : nat -> Calculation) (g1 g2 : DiGraph) (node : nat) :
  check_input_order (objects node) = true ->
  Permutation (edges g1) (edges g2) ->
  NoDup (map (fun item : nat * attrs => input_idx (snd item)) (pred g1 node)) ->
  get_sorted_node_predecessors {| obj := objects; G := g1 |} node =
    get_sorted_node_predecessors {| obj := objects; G := g2 |} node.
Proof.
  intros Hord Hperm Hnd. unfold get_sorted_node_predecessors. cbn [obj G].
  rewrite Hord, !index_items_eq.
  pose proof (@pred_perm g1 g2 node Hperm) as Hp.
  rewrite <- (@forallb_perm _ (has_index input_idx) _ _ Hp).
  destruct (forallb (has_index input_idx) (pred g1 node)) eqn:Hall;
    [cbn [bind]|reflexivity].
  do 2 f_equal. apply sorted_unique; try apply sorted_sorted.
  - rewrite !sorted_perm. now apply Permutation_map.
  - eapply Permutation_NoDup;
      [apply Permutation_map, Permutation_sym, sorted_perm|].
    rewrite forallb_forall in Hall. now apply nodup_indexed.
Qed.

End EdgeOrder.

(** ** Failures before the traversal *)

Section MoreSeeding.

Import pandas nodes graphs examples course.

Variable set_list : list nat -> list nat.
Variable self : CompositeCalculation.

Section AnyPass.

Variable V : Type.
Variable first_call : nat -> result V.

Lemma seed_raise_source (ins : list nat) : forall (pl : payload V) (e : exception),
  seed self first_call ins pl = Raise e ->
  exists node, In node ins /\ first_call node = Raise e.
Proof.
  induction ins as [|n ins IH]; intros pl e H; [discriminate|].
  cbn [seed] in H. destruct (first_call n) as [v|e'] eqn:Hn.
  - cbn [bind] in H. rewrite update_with_one_value in H. cbn [bind] in H.
    destruct (IH _ _ H) as (node & Hin & Hnode).
    exists node. split; [now right|assumption].
  - cbn [bind] in H. injection H as <-. exists n. split; [now left|assumption].
Qed.

Lemma seed_raises (ins : list nat) : forall (pl : payload V) (node : nat)
    (e0 : exception),
  In node ins -> first_call node = Raise e0 ->
  exists e, seed self first_call ins pl = Raise e.
Proof.
  induction ins as [|n ins IH]; intros pl node e0 Hin Hnode; [destruct Hin|].
  cbn [seed]. destruct (first_call n) as [v|e'] eqn:Hn.
  - cbn [bind]. rewrite update_with_one_value. cbn [bind].
    destruct Hin as [->|Hin]; [congruence|]. now apply (IH _ node e0).
  - now exists e'.
Qed.

End AnyPass.

Variable pd : kernel.

Lemma getitem_or_key_error (cols : list (string * list float)) (key : string) :
  (exists s, getitem cols key = Ok s) \/
  (getitem cols key = Raise (KeyError (Builtin key)) /\
   ~ In key (map fst cols)).
Proof.
  induction cols as [|[c vs] cols IH]; cbn; [right; split; [reflexivity|easy]|].
  destruct (String.eqb_spec c key) as [->|Hne]; [left; now eexists|].
  destruct IH as [IH|[IH Hno]]; [now left|right].
  split; [assumption|]. intros [H|H]; [congruence|contradiction].
Qed.

(** X14: when the column of an [Input] node that has no predecessor is
    missing from the table, [compute] ends while seeding, with the exception
    an input node raised on the table, before the traversal starts; when
    all the input nodes are [Input] objects it is a [KeyError] for a
    missing column. *)
Theorem missing_column_stops_at_seeding (st : payload object)
    (input_data : DataFrame) (node : nat) (ts_name : string) :
  In node (input_nodes self) ->
  obj self node = Input ts_name ->
  ~ In ts_name (map fst (columns input_data)) ->
  exists e culprit,
    In culprit (input_nodes self) /\
    nodes.compute pd (obj self culprit) [PFrame input_data] = Raise e /\
    seed self (compute_input self pd input_data) (input_nodes self)
         (_clear_edge_info st) = Raise e /\
    compute set_list self pd st input_data = Raise e /\
    ((forall n, In n (input_nodes self) -> exists name, obj self n = Input name) ->
     exists k, e = KeyError (Builtin k) /\
               ~ In k (map fst (columns input_data))).
Proof.
  intros Hin Hobj Hmiss.
  assert (Hnode : compute_input self pd input_data node =
                    Raise (KeyError (Builtin ts_name))).
  { unfold compute_input. rewrite Hobj. cbn.
    destruct (getitem_or_key_error (columns input_data) ts_name)
      as [(s & Hs)|[-> _]]; [|reflexivity].
    exfalso. apply Hmiss. clear Hmiss Hobj Hin.
    induction (columns input_data) as [|[c vs] cols IH]; [discriminate|].
    cbn in *. destruct (String.eqb_spec c ts_name); [now left|].
    right. now apply IH. }
  destruct (@seed_raises _ (compute_input self pd input_data)
              (input_nodes self) (_clear_edge_info st) node _ Hin Hnode)
    as (e & Hseed).
  destruct (seed_raise_source _ _ _ Hseed) as (culprit & Hc & Hraise).
  exists e, culprit. split; [assumption|]. split; [exact Hraise|].
  split; [assumption|]. split.
  - unfold compute. now rewrite Hseed.
  - intros Hall. destruct (Hall _ Hc) as (name & Hname).
    unfold compute_input in Hraise. rewrite Hname in Hraise. cbn in Hraise.
    destruct (getitem_or_key_error (columns input_data) name)
      as [(s & Hs)|[Hk Hno]].
    + rewrite Hs in Hraise. discriminate.
    + rewrite Hk in Hraise. injection Hraise as <-. now exists name.
Qed.

(** X16: in a graph that has no node without successors, or several,
    neither pass returns: [output_node] raises the [ValueError] listing
    those nodes, and so does each pass once seeding has gone through. *)
Theorem no_single_output_no_result (st : payload object)
    (stf : payload frequencies.FreqStr) (input_data : DataFrame)
    (input_frequencies : string -> option frequencies.FreqStr) :
  length (filter (fun node => (length (succ (G self) node) =? 0)%nat)
                 (nodes (G self))) <> 1 ->
  output_node self =
    Raise (ValueError (ExactlyOneOutput
      (filter (fun node => (length (succ (G self) node) =? 0)%nat)
              (nodes (G self))))) /\
  (exists e, compute set_list self pd st input_data = Raise e) /\
  (exists e, parse_frequencies set_list self stf input_frequencies = Raise e) /\
  (forall pl,
     seed self (compute_input self pd input_data) (input_nodes self)
          (_clear_edge_info st) = Ok pl ->
     compute set_list self pd st input_data =
       Raise (ValueError (ExactlyOneOutput
         (filter (fun node => (length (succ (G self) node) =? 0)%nat)
                 (nodes (G self)))))) /\
  (forall pl,
     seed self (output_frequency_input self input_frequencies)
          (input_nodes self) (_clear_edge_info stf) = Ok pl ->
     parse_frequencies set_list self stf input_frequencies =
       Raise (ValueError (ExactlyOneOutput
         (filter (fun node => (length (succ (G self) node) =? 0)%nat)
                 (nodes (G self)))))).
Proof.
  intros Hlen.
  assert (Hout : output_node self =
    Raise (ValueError (ExactlyOneOutput
      (filter (fun node => (length (succ (G self) node) =? 0)%nat)
              (nodes (G self)))))).
  { unfold output_node.
    destruct (filter _ (nodes (G self))) as [|a [|b r]]; try reflexivity.
    now destruct Hlen. }
  assert (Htr : forall (V : Type) (method : Calculation -> list V -> result V)
                       (pl : payload V),
            _traverse_graph set_list self method pl =
              Raise (ValueError (ExactlyOneOutput
                (filter (fun node => (length (succ (G self) node) =? 0)%nat)
                        (nodes (G self)))))).
  { intros V method pl. unfold _traverse_graph. now rewrite Hout. }
  split; [exact Hout|]. unfold compute, parse_frequencies.
  split; [|split; [|split]].
  - destruct (seed self (compute_input self pd input_data) _ _);
      cbn [bind]; [rewrite Htr|]; now eexists.
  - destruct (seed self (output_frequency_input self input_frequencies) _ _);
      cbn [bind]; [rewrite Htr|]; now eexists.
  - intros pl ->. cbn [bind]. apply Htr.
  - intros pl ->. cbn [bind]. apply Htr.
Qed.

End MoreSeeding.

(** ** Results reach the first successor only *)

Section FanOut.

Import pandas nodes graphs examples course notions.

Variable set_list : list nat -> list nat.
Hypothesis set_list_perm : forall l, Permutation (set_list l) l.

Section Starved.

Variable self : CompositeCalculation.
Variable V : Type.
Variable method : Calculation -> list V -> result V.
Variable inside : nat -> bool.
Variable final : nat.
Hypothesis inside_starved : starved self inside.
Hypothesis final_inside : inside final = true.

Lemma frontier_not_starved (pl : payload V) (cs : list nat) :
  kept_empty self inside pl ->
  _unvisited_nodes_with_all_inputs set_list self pl = Ok cs ->
  forall node, In node cs -> inside node = false.
Proof.
  unfold _unvisited_nodes_with_all_inputs. intros Hk Hfr node Hin.
  destruct (collect_unvisited self pl (nodes (G self))) as [l|e] eqn:Hc;
    [cbn [bind] in Hfr|discriminate].
  injection Hfr as <-. apply (Permutation_in _ (set_list_perm l)) in Hin.
  assert (Hready : forallb (fun p => is_not_None (pl p node))
                     (predecessors (G self) node) = true)
    by (eapply collect_ready; eassumption).
  destruct (inside node) eqn:Hi; [|reflexivity].
  destruct (inside_starved Hi) as (p & Hp & Hpn).
  rewrite forallb_forall in Hready. specialize (Hready p Hp).
  now rewrite (Hk p node Hpn) in Hready.
Qed.

Lemma update_one_keeps_empty (pl pl' : payload V) (node : nat) (v : V) :
  inside node = false ->
  kept_empty self inside pl ->
  _update_successor_edge_information self pl node [v] = Ok pl' ->
  kept_empty self inside pl'.
Proof.
  rewrite update_with_one_value. intros Hout Hk H. injection H as <-.
  destruct (successors (G self) node) as [|s ss] eqn:Hs; [assumption|].
  intros u w Huw. rewrite set_payload_other; [now apply Hk|].
  destruct (Nat.eq_dec u node) as [->|]; [|now left]. right. intros ->.
  destruct Huw as [Hu|Hu]; [congruence|]. rewrite Hs in Hu. now apply Hu.
Qed.

Lemma for_nodes_keeps_empty (cs : list nat) : forall st st' : locals V,
  (forall node, In node cs -> inside node = false) ->
  kept_empty self inside (edge_info st) ->
  for_nodes self method final cs st = Ok st' ->
  kept_empty self inside (edge_info st') /\
  final_node_reached st' = final_node_reached st.
Proof.
  induction cs as [|node rest IH]; intros st st' Hcs Hk Hfor.
  - cbn in Hfor. injection Hfor as <-. now split.
  - assert (Hnode : inside node = false) by (apply Hcs; now left).
    assert (Hne : node <> final) by congruence.
    cbn [for_nodes] in Hfor.
    destruct (_get_predecessor_edge_information self (edge_info st) node)
      as [inputs|e]; [cbn [bind] in Hfor|discriminate].
    destruct (arguments inputs) as [args|e]; [cbn [bind] in Hfor|discriminate].
    destruct (try_method self method node args) as [r|e];
      [cbn [bind] in Hfor|discriminate].
    apply Nat.eqb_neq in Hne. rewrite Hne in Hfor. cbn [negb as_list items] in Hfor.
    destruct (_update_successor_edge_information self (edge_info st) node [r])
      as [pl|e] eqn:Hup; [cbn [bind] in Hfor|discriminate].
    assert (Hk1 : kept_empty self inside pl)
      by (eapply update_one_keeps_empty; eassumption).
    eapply IH in Hfor;
      [ | intros n Hn; apply Hcs; now right | cbn; exact Hk1 ].
    destruct Hfor as [Hk' Hr']. split; assumption.
Qed.

Lemma while_keeps_empty (k : nat) : forall (cs : list nat) (st st' : locals V),
  kept_empty self inside (edge_info st) ->
  (forall node, In node cs -> inside node = false) ->
  fst (while_loop set_list self method final k cs st) = Ok st' ->
  final_node_reached st' = final_node_reached st.
Proof.
  induction k as [|k IH]; intros cs st st' Hk Hcs Hw.
  - cbn in Hw. now injection Hw as <-.
  - destruct cs as [|c cs]; [cbn in Hw; now injection Hw as <-|].
    rewrite while_loop_round in Hw.
    destruct (for_nodes self method final (c :: cs) st) as [st1|e] eqn:Hfor;
      [|discriminate].
    destruct (@for_nodes_keeps_empty (c :: cs) st st1 Hcs Hk Hfor) as [Hk1 Hr1].
    destruct (_unvisited_nodes_with_all_inputs set_list self (edge_info st1))
      as [cs1|e] eqn:Hfr; [|discriminate].
    rewrite (IH cs1 st1 st' Hk1); [assumption | | assumption].
    eapply frontier_not_starved; eassumption.
Qed.

Lemma traverse_starved (pl : payload V) :
  output_node self = Ok final ->
  kept_empty self inside pl ->
  (exists e, _traverse_graph set_list self method pl = Raise e) /\
  forall cs st,
    _unvisited_nodes_with_all_inputs set_list self pl = Ok cs ->
    fst (while_loop set_list self method final max_iter cs
           {| edge_info := pl; calculation_results := None;
              final_node_reached := false |}) = Ok st ->
    _traverse_graph set_list self method pl = Raise (ValueError CouldntReach).
Proof.
  intros Hout Hk.
  assert (Hleft : forall cs st,
    _unvisited_nodes_with_all_inputs set_list self pl = Ok cs ->
    fst (while_loop set_list self method final max_iter cs
           {| edge_info := pl; calculation_results := None;
              final_node_reached := false |}) = Ok st ->
    _traverse_graph set_list self method pl = Raise (ValueError CouldntReach)).
  { intros cs st Hfr Hw. unfold _traverse_graph.
    rewrite Hout; cbn [bind]. rewrite Hfr; cbn [bind]. rewrite Hw; cbn [bind].
    eapply while_keeps_empty in Hw;
      [| exact Hk | eapply frontier_not_starved; eassumption].
    cbn in Hw. now rewrite Hw. }
  split; [|exact Hleft].
  unfold _traverse_graph. rewrite Hout; cbn [bind].
  destruct (_unvisited_nodes_with_all_inputs set_list self pl) as [cs|e] eqn:Hfr;
    [cbn [bind]|now exists e].
  destruct (fst (while_loop set_list self method final max_iter cs
                   {| edge_info := pl; calculation_results := None;
                      final_node_reached := false |})) as [st|e] eqn:Hw;
    [|now exists e].
  specialize (Hleft cs st eq_refl Hw). unfold _traverse_graph in Hleft.
  rewrite Hout in Hleft; cbn [bind] in Hleft.
  rewrite Hfr in Hleft; cbn [bind] in Hleft. rewrite Hw in Hleft.
  eexists. exact Hleft.
Qed.

Lemma seed_keeps_empty (first_call : nat -> result V) (st pl' : payload V) :
  seed self first_call (input_nodes self) (_clear_edge_info st) = Ok pl' ->
  kept_empty self inside pl'.
Proof.
  intros Hseed u w Huw.
  erewrite seed_elsewhere; [reflexivity | exact Hseed |].
  destruct Huw as [Hu|Hu]; [left|now right].
  unfold input_nodes. rewrite filter_In. intros [_ Hlen].
  destruct (inside_starved Hu) as (p & Hp & _).
  unfold predecessors in Hp. destruct (pred (G self) u); [destruct Hp|].
  discriminate Hlen.
Qed.

End Starved.

(** X17: a result goes to the first successor of a node only. When the
    output node is in a set of nodes each of which has a predecessor that is
    in the set or has another node as its first successor, neither pass
    returns; a pass that gets through seeding and the loop ends with the
    exception that says the final node was not reached. *)
Theorem second_successor_starves (self : CompositeCalculation) (pd : kernel)
    (inside : nat -> bool) (final : nat) :
  output_node self = Ok final ->
  inside final = true ->
  starved self inside ->
  (forall (st : payload object) (input_data : DataFrame),
     (exists e, compute set_list self pd st input_data = Raise e) /\
     (forall pl cs l,
        seed self (compute_input self pd input_data) (input_nodes self)
             (_clear_edge_info st) = Ok pl ->
        _unvisited_nodes_with_all_inputs set_list self pl = Ok cs ->
        fst (while_loop set_list self (nodes.compute pd) final max_iter cs
               {| edge_info := pl; calculation_results := None;
                  final_node_reached := false |}) = Ok l ->
        compute set_list self pd st input_data =
          Raise (ValueError CouldntReach)))
  /\
  (forall (st : payload frequencies.FreqStr)
          (input_frequencies : string -> option frequencies.FreqStr),
     (exists e,
        parse_frequencies set_list self st input_frequencies = Raise e) /\
     (forall pl cs l,
        seed self (output_frequency_input self input_frequencies)
             (input_nodes self) (_clear_edge_info st) = Ok pl ->
        _unvisited_nodes_with_all_inputs set_list self pl = Ok cs ->
        fst (while_loop set_list self nodes.output_frequency final max_iter cs
               {| edge_info := pl; calculation_results := None;
                  final_node_reached := false |}) = Ok l ->
        parse_frequencies set_list self st input_frequencies =
          Raise (ValueError CouldntReach))).
Proof.
  intros Hout Hfinal Hst. split.
  - intros st input_data. unfold compute.
    destruct (seed self (compute_input self pd input_data) (input_nodes self)
                   (_clear_edge_info st)) as [pl|e] eqn:Hseed; cbn [bind].
    + destruct (@traverse_starved self _ (nodes.compute pd) inside final
                  Hst Hfinal pl Hout) as [Hfails Hleft].
      { eapply seed_keeps_empty; eassumption. }
      split; [exact Hfails|].
      intros pl' cs l Hpl. injection Hpl as <-. apply Hleft.
    + split; [now exists e | discriminate].
  - intros st input_frequencies. unfold parse_frequencies.
    destruct (seed self (output_frequency_input self input_frequencies)
                   (input_nodes self) (_clear_edge_info st))
      as [pl|e] eqn:Hseed; cbn [bind].
    + destruct (@traverse_starved self _ nodes.output_frequency inside
                  final Hst Hfinal pl Hout) as [Hfails Hleft].
      { eapply seed_keeps_empty; eassumption. }
      split; [exact Hfails|].
      intros pl' cs l Hpl. injection Hpl as <-. apply Hleft.
    + split; [now exists e | discriminate].
Qed.

End FanOut.

(** ** What a pass returns *)

Section Reached.

Import pandas nodes graphs examples course notions.

Variable set_list : list nat -> list nat.
Hypothesis set_list_perm : forall l, Permutation (set_list l) l.

Section OnePass.

Variable self : CompositeCalculation.
Variable V : Type.
Variable method : Calculation -> list V -> result V.
Variable final : nat.
Hypothesis final_is_output : output_node self = Ok final.

Lemma sorted_predecessors_perm (node : nat) (ps : list nat) :
  get_sorted_node_predecessors self node = Ok ps ->
  Permutation ps (predecessors (G self) node).
Proof.
  unfold get_sorted_node_predecessors.
  destruct (check_input_order (obj self node)).
  - rewrite index_items_eq.
    destruct (forallb (has_index input_idx) (pred (G self) node));
      [cbn [bind]|discriminate].
    intros H. injection H as <-.
    unfold predecessors. rewrite sorted_perm, map_map. reflexivity.
  - intros H. now injection H as <-.
Qed.

Lemma arguments_all_values (inputs : list (option V)) (args : list V) :
  arguments inputs = Ok args -> forallb (@is_not_None V) inputs = true.
Proof.
  revert args. induction inputs as [|[v|] inputs IH]; cbn; intros args H;
    [reflexivity| |discriminate].
  destruct (arguments inputs) as [r|]; [|discriminate]. now apply (IH r).
Qed.

Lemma evaluated_was_ready (pl : payload V) (node : nat)
    (inputs : list (option V)) (args : list V) :
  _get_predecessor_edge_information self pl node = Ok inputs ->
  arguments inputs = Ok args ->
  ready self node pl = true.
Proof.
  unfold _get_predecessor_edge_information, ready. intros Hin Hargs.
  destruct (get_sorted_node_predecessors self node) as [ps|] eqn:Hps;
    [cbn [bind] in Hin|discriminate].
  injection Hin as <-. apply arguments_all_values in Hargs.
  rewrite forallb_forall in *. intros p Hp.
  apply Hargs, in_map_iff. exists p. split; [reflexivity|].
  apply (Permutation_in _ (Permutation_sym (sorted_predecessors_perm _ Hps))).
  assumption.
Qed.

Lemma try_method_ok (node : nat) (args : list V) (r : V) :
  try_method self method node args = Ok r ->
  method (obj self node) args = Ok r.
Proof.
  unfold try_method. destruct (method (obj self node) args) as [v|[]];
    congruence.
Qed.

Lemma update_one_adds (pl pl' : payload V) (node : nat) (v : V) :
  _update_successor_edge_information self pl node [v] = Ok pl' ->
  forall u w, is_not_None (pl u w) = true -> is_not_None (pl' u w) = true.
Proof.
  rewrite update_with_one_value. intros H. injection H as <-.
  destruct (successors (G self) node); [easy|].
  intros u w. apply set_payload_keeps.
Qed.

Lemma ready_kept (pl pl' : payload V) (node : nat) :
  (forall u w, is_not_None (pl u w) = true -> is_not_None (pl' u w) = true) ->
  ready self node pl = true -> ready self node pl' = true.
Proof.
  unfold ready. rewrite !forallb_forall. intros Hadd H p Hp.
  apply Hadd, H, Hp.
Qed.

Lemma for_nodes_adds (cs : list nat) : forall st st' : locals V,
  for_nodes self method final cs st = Ok st' ->
  forall u w, is_not_None (edge_info st u w) = true ->
              is_not_None (edge_info st' u w) = true.
Proof.
  induction cs as [|node rest IH]; intros st st' Hfor.
  - cbn in Hfor. now injection Hfor as <-.
  - cbn [for_nodes] in Hfor.
    destruct (_get_predecessor_edge_information self (edge_info st) node)
      as [inputs|e]; [cbn [bind] in Hfor|discriminate].
    destruct (arguments inputs) as [args|e]; [cbn [bind] in Hfor|discriminate].
    destruct (try_method self method node args) as [r|e];
      [cbn [bind] in Hfor|discriminate].
    destruct (node =? final); cbn [negb as_list items] in Hfor.
    + now injection Hfor as <-.
    + destruct (_update_successor_edge_information self (edge_info st) node [r])
        as [pl|e] eqn:Hup; [cbn [bind] in Hfor|discriminate].
      intros u w Huw. apply (IH _ _ Hfor). cbn.
      eapply update_one_adds; eassumption.
Qed.

Lemma for_nodes_settles (cs : list nat) : forall st st' : locals V,
  for_nodes self method final cs st = Ok st' ->
  (final_node_reached st = true -> In final cs) ->
  settled self method final st'.
Proof.
  induction cs as [|node rest IH]; intros st st' Hfor Hin.
  - cbn in Hfor. injection Hfor as <-. intros Hr. destruct (Hin Hr).
  - cbn [for_nodes] in Hfor.
    destruct (_get_predecessor_edge_information self (edge_info st) node)
      as [inputs|e] eqn:Hinputs; [cbn [bind] in Hfor|discriminate].
    destruct (arguments inputs) as [args|e] eqn:Hargs;
      [cbn [bind] in Hfor|discriminate].
    destruct (try_method self method node args) as [r|e] eqn:Hr;
      [cbn [bind] in Hfor|discriminate].
    destruct (Nat.eqb_spec node final) as [->|Hne];
      cbn [negb as_list items] in Hfor.
    + injection Hfor as <-. intros _. cbn. split.
      * eapply evaluated_was_ready; eassumption.
      * exists args, r. split; [now apply try_method_ok|reflexivity].
    + destruct (_update_successor_edge_information self (edge_info st) node [r])
        as [pl|e]; [cbn [bind] in Hfor|discriminate].
      apply (IH _ _ Hfor). cbn. intros Hreached.
      destruct (Hin Hreached) as [Heq|Hrest]; [congruence|assumption].
Qed.

Lemma final_is_node : In final (nodes (G self)).
Proof.
  unfold output_node in final_is_output.
  destruct (filter (fun node => (length (succ (G self) node) =? 0)%nat)
                   (nodes (G self))) as [|a [|b r]] eqn:Hf;
    try discriminate.
  injection final_is_output as <-.
  assert (H : In a (filter (fun node => (length (succ (G self) node) =? 0)%nat)
                           (nodes (G self)))) by (rewrite Hf; now left).
  now apply filter_In in H.
Qed.

Lemma collect_has_final (pl : payload V) (l cs : list nat) :
  collect_unvisited self pl l = Ok cs ->
  ready self final pl = true -> In final l -> In final cs.
Proof.
  revert cs. induction l as [|n l IH]; intros cs Hc Hready Hin;
    [destruct Hin|].
  cbn [collect_unvisited] in Hc. rewrite final_is_output in Hc.
  cbn [bind] in Hc.
  destruct (collect_unvisited self pl l) as [others|];
    [cbn [bind] in Hc|discriminate].
  destruct (Nat.eqb_spec n final) as [->|Hne].
  - unfold ready in Hready. rewrite Hready, orb_true_r in Hc. cbn in Hc.
    injection Hc as <-. now left.
  - destruct Hin as [Heq|Hin]; [congruence|].
    specialize (IH others eq_refl Hready Hin).
    destruct (_ && _)%bool; injection Hc as <-; [now right|assumption].
Qed.

Lemma frontier_has_final (pl : payload V) (cs : list nat) :
  _unvisited_nodes_with_all_inputs set_list self pl = Ok cs ->
  ready self final pl = true -> In final cs.
Proof.
  unfold _unvisited_nodes_with_all_inputs. intros Hfr Hready.
  destruct (collect_unvisited self pl (nodes (G self))) as [l|] eqn:Hc;
    [cbn [bind] in Hfr|discriminate].
  injection Hfr as <-.
  apply (Permutation_in _ (Permutation_sym (set_list_perm l))).
  eapply collect_has_final; [eassumption | assumption | apply final_is_node].
Qed.

Lemma while_settles (k : nat) : forall (cs : list nat) (st st' : locals V)
    (k' : nat),
  settled self method final st ->
  (final_node_reached st = true -> In final cs) ->
  while_loop set_list self method final k cs st = (Ok st', k') ->
  settled self method final st' /\ (final_node_reached st' = true -> k' = 0).
Proof.
  induction k as [|k IH]; intros cs st st' k' Hst Hin Hw.
  - cbn in Hw. injection Hw as <- <-. now split.
  - destruct cs as [|c cs].
    + cbn in Hw. injection Hw as <- <-. split; [assumption|].
      intros Hr. destruct (Hin Hr).
    + rewrite while_loop_round in Hw.
      destruct (for_nodes self method final (c :: cs) st) as [st1|e] eqn:Hfor;
        [|discriminate].
      destruct (_unvisited_nodes_with_all_inputs set_list self (edge_info st1))
        as [cs1|e] eqn:Hfr; [|discriminate].
      assert (Hst1 : settled self method final st1) by (eapply for_nodes_settles; eassumption).
      apply (IH cs1 st1 st' k' Hst1); [|assumption].
      intros Hr. eapply frontier_has_final; [eassumption|].
      now apply Hst1.
Qed.

Lemma traverse_returns (pl : payload V) (r : pyvalue V) :
  _traverse_graph set_list self method pl = Ok r ->
  (exists args v, method (obj self final) args = Ok v /\ r = PyList [v]) /\
  exists cs st,
    _unvisited_nodes_with_all_inputs set_list self pl = Ok cs /\
    while_loop set_list self method final max_iter cs
      {| edge_info := pl; calculation_results := None;
         final_node_reached := false |} = (Ok st, 0).
Proof.
  unfold _traverse_graph. rewrite final_is_output; cbn [bind].
  destruct (_unvisited_nodes_with_all_inputs set_list self pl) as [cs|] eqn:Hfr;
    [cbn [bind]|discriminate].
  destruct (while_loop set_list self method final max_iter cs _)
    as [[st|e] k'] eqn:Hw; cbn [fst bind]; [|discriminate].
  destruct (final_node_reached st) eqn:Hreached; cbn [negb]; [|discriminate].
  pose proof Hw as Hw'.
  apply while_settles in Hw'; [|discriminate|discriminate].
  destruct Hw' as [Hst Hk]. rewrite (Hk Hreached) in Hw.
  destruct (Hst Hreached) as (_ & args & v & Hv & Hres). rewrite Hres.
  intros H. injection H as <-. split; [now exists args, v|].
  exists cs, st. now split.
Qed.

End OnePass.

Lemma pass_has_output_node (self : CompositeCalculation) (V : Type)
    (method : Calculation -> list V -> result V) (pl : payload V)
    (r : pyvalue V) :
  _traverse_graph set_list self method pl = Ok r ->
  exists final, output_node self = Ok final.
Proof.
  unfold _traverse_graph. destruct (output_node self) as [final|];
    [now exists final|discriminate].
Qed.

(** X18: a pass that returns, returns the one-element list around a value
    that the method of the output node returned on some inputs; for
    [compute] with an [Output(name)] as output node, that value is a series
    named [name]. *)
Theorem pass_returns_output_node_result (self : CompositeCalculation)
    (pd : kernel) :
  (forall (st : payload object) (input_data : DataFrame) (r : pyvalue object),
     compute set_list self pd st input_data = Ok r ->
     exists final args v,
       output_node self = Ok final /\
       nodes.compute pd (obj self final) args = Ok v /\
       r = PyList [v] /\
       (forall ts_name, obj self final = Output ts_name ->
          exists vs, v = PSeries {| name := Some ts_name; values := vs |}))
  /\
  (forall (st : payload frequencies.FreqStr)
          (input_frequencies : string -> option frequencies.FreqStr)
          (r : pyvalue frequencies.FreqStr),
     parse_frequencies set_list self st input_frequencies = Ok r ->
     exists final fs f,
       output_node self = Ok final /\
       nodes.output_frequency (obj self final) fs = Ok f /\
       r = PyList [f]).
Proof.
  split.
  - intros st input_data r. unfold compute.
    destruct (seed self (compute_input self pd input_data) _ _) as [pl|];
      [cbn [bind]|discriminate].
    intros H. destruct (@pass_has_output_node self _ _ pl r H) as (final & Hout).
    destruct (@traverse_returns self _ _ final Hout pl r H)
      as ((args & v & Hv & ->) & _).
    exists final, args, v. repeat split; try assumption.
    intros ts_name Hobj. rewrite Hobj in Hv.
    destruct args as [|[s|d] [|y rest]]; try discriminate Hv.
    cbn in Hv. injection Hv as <-. now eexists.
  - intros st input_frequencies r. unfold parse_frequencies.
    destruct (seed self (output_frequency_input self input_frequencies) _ _)
      as [pl|]; [cbn [bind]|discriminate].
    intros H. destruct (@pass_has_output_node self _ _ pl r H) as (final & Hout).
    destruct (@traverse_returns self _ _ final Hout pl r H)
      as ((fs & f & Hf & ->) & _).
    now exists final, fs, f.
Qed.

(** X19: the loop does not stop when the final node is reached: a
    traversal that returns has left its [while] loop with no iteration
    left, after [max_iter] rounds. *)
Theorem returning_pass_uses_every_iteration (self : CompositeCalculation)
    (V : Type) (method : Calculation -> list V -> result V)
    (pl : payload V) (r : pyvalue V) :
  _traverse_graph set_list self method pl = Ok r ->
  exists final cs st,
    output_node self = Ok final /\
    _unvisited_nodes_with_all_inputs set_list self pl = Ok cs /\
    while_loop set_list self method final max_iter cs
      {| edge_info := pl; calculation_results := None;
         final_node_reached := false |} = (Ok st, 0) /\
    final_node_reached st = true.
Proof.
  intros H. destruct (@pass_has_output_node self _ _ pl r H) as (final & Hout).
  destruct (@traverse_returns self _ _ final Hout pl r H)
    as (_ & cs & st & Hfr & Hw).
  exists final, cs, st. repeat split; try assumption.
  unfold _traverse_graph in H. rewrite Hout in H; cbn [bind] in H.
  rewrite Hfr in H; cbn [bind] in H. rewrite Hw in H; cbn [fst bind] in H.
  now destruct (final_node_reached st).
Qed.

End Reached.

(** ** The outcome of [parse_frequencies] *)

Section Outcome.

Import pandas nodes graphs examples course notions.

Variable set_list : list nat -> list nat.
Hypothesis set_list_perm : forall l, Permutation (set_list l) l.





End Outcome.

(** ** The graph of an edge list, and further checks *)

Section Construction.

Import pandas nodes graphs notions.

Lemma add_node_nodes (g : DiGraph) (n : nat) :
  edges (add_node g n) = edges g /\
  (forall m, In m (nodes (add_node g n)) <-> m = n \/ In m (nodes g)) /\
  (NoDup (nodes g) -> NoDup (nodes (add_node g n))).
Proof.
  unfold add_node. destruct (existsb (Nat.eqb n) (nodes g)) eqn:Hex.
  - apply existsb_exists in Hex. destruct Hex as (x & Hx & Heq).
    apply Nat.eqb_eq in Heq. subst x.
    split; [reflexivity|]. split; [|easy].
    intros m. split; [now right|]. now intros [->|].
  - cbn. split; [reflexivity|]. split.
    + intros m. rewrite in_app_iff. cbn. intuition congruence.
    + intros Hnd. apply NoDup_app; [assumption|repeat constructor; easy|].
      intros x Hx [Heq|[]]. subst x.
      assert (H : existsb (Nat.eqb n) (nodes g) = true).
      { apply existsb_exists. exists n. split; [assumption|apply Nat.eqb_refl]. }
      congruence.
Qed.

Lemma set_edge_keys (es : list edge) (u v : nat) (dd : attrs) :
  (In (u, v) (map endpoints es) -> map endpoints (set_edge es u v dd) = map endpoints es) /\
  (~ In (u, v) (map endpoints es) ->
   map endpoints (set_edge es u v dd) = map endpoints es ++ [(u, v)]).
Proof.
  induction es as [|[[u' v'] d] es [IH1 IH2]]; cbn.
  - split; [easy|reflexivity].
  - destruct (Nat.eqb_spec u' u) as [->|Hu];
      [destruct (Nat.eqb_spec v' v) as [->|Hv]|]; cbn.
    + split; [reflexivity|]. intros H. destruct H. now left.
    + split; intros H.
      * f_equal. apply IH1. destruct H as [H|H]; [congruence|assumption].
      * f_equal. apply IH2. tauto.
    + split; intros H.
      * f_equal. apply IH1. destruct H as [H|H]; [congruence|assumption].
      * f_equal. apply IH2. tauto.
Qed.

Lemma set_edge_in (es : list edge) (u v : nat) (dd : attrs) :
  forall a b d, In (a, b, d) (set_edge es u v dd) ->
    (a = u /\ b = v) \/ In (a, b, d) es.
Proof.
  induction es as [|[[u' v'] d'] es IH]; cbn; intros a b d H.
  - destruct H as [H|[]]. injection H as <- <- <-. now left.
  - destruct (Nat.eqb_spec u' u) as [->|Hu];
      [destruct (Nat.eqb_spec v' v) as [->|Hv]|]; cbn in H.
    + destruct H as [H|H]; [injection H as <- <- <-; now left|right; now right].
    + destruct H as [H|H]; [right; now left|].
      destruct (IH _ _ _ H); [now left|right; now right].
    + destruct H as [H|H]; [right; now left|].
      destruct (IH _ _ _ H); [now left|right; now right].
Qed.

Lemma set_edge_has (es : list edge) (u v : nat) (dd : attrs) :
  (exists d, In (u, v, d) (set_edge es u v dd)) /\
  (forall a b d, In (a, b, d) es -> exists d', In (a, b, d') (set_edge es u v dd)).
Proof.
  induction es as [|[[u' v'] d'] es [IH1 IH2]]; cbn.
  - split; [exists dd; now left|easy].
  - destruct (Nat.eqb_spec u' u) as [->|Hu];
      [destruct (Nat.eqb_spec v' v) as [->|Hv]|]; cbn.
    + split; [eexists; now left|].
      intros a b d [H|H]; [injection H as <- <- <-; eexists; now left|].
      exists d. now right.
    + split; [destruct IH1 as (d & Hd); exists d; now right|].
      intros a b d [H|H]; [exists d; now left|].
      destruct (IH2 _ _ _ H) as (d0 & Hd0). exists d0. now right.
    + split; [destruct IH1 as (d & Hd); exists d; now right|].
      intros a b d [H|H]; [exists d; now left|].
      destruct (IH2 _ _ _ H) as (d0 & Hd0). exists d0. now right.
Qed.

Lemma add_edge_simple (g : DiGraph) (e : edge) :
  simple g -> simple (add_edge g e).
Proof.
  destruct e as [[u v] dd]. intros (Hn & Hk & Hends & Hcov).
  unfold simple, add_edge.
  destruct (add_node_nodes g u) as (He1 & Hin1 & Hnd1).
  destruct (add_node_nodes (add_node g u) v) as (He2 & Hin2 & Hnd2).
  cbn [nodes edges]. rewrite He2, He1.
  assert (Hnodes : forall m, In m (nodes (add_node (add_node g u) v)) <->
                             m = v \/ m = u \/ In m (nodes g)).
  { intros m. rewrite Hin2, Hin1. tauto. }
  split; [now apply Hnd2, Hnd1|]. split; [|split].
  - destruct (set_edge_keys (edges g) u v dd) as [Hold Hnew].
    destruct (in_dec (fun a b : nat * nat =>
                        ltac:(decide equality; apply Nat.eq_dec))
                     (u, v) (map endpoints (edges g))) as [Hin|Hin].
    + now rewrite Hold.
    + rewrite (Hnew Hin). apply NoDup_app; [assumption|repeat constructor; easy|].
      intros x Hx [<-|[]]. contradiction.
  - intros a b d H. rewrite !Hnodes.
    destruct (set_edge_in _ _ _ _ _ _ _ H) as [[-> ->]|Hold]; [tauto|].
    destruct (Hends _ _ _ Hold). tauto.
  - intros n Hnin. apply Hnodes in Hnin.
    destruct (set_edge_has (edges g) u v dd) as [(d & Hd) Hkeep].
    destruct Hnin as [->|[->|Hnin]].
    + exists u, v, d. tauto.
    + exists u, v, d. tauto.
    + destruct (Hcov _ Hnin) as (a & b & d0 & Hin & Hends').
      destruct (Hkeep _ _ _ Hin) as (d1 & Hd1). exists a, b, d1. tauto.
Qed.

Lemma add_edges_from_simple (ebunch : list edge) : forall g,
  simple g -> simple (add_edges_from g ebunch).
Proof.
  induction ebunch as [|e es IH]; intros g Hg; [assumption|].
  cbn. apply IH. now apply add_edge_simple.
Qed.

Lemma add_edges_from_covers (ebunch : list edge) : forall g,
  (forall a b d, In (a, b, d) (edges g) ->
     exists d', In (a, b, d') (edges (add_edges_from g ebunch))) /\
  (forall a b d, In (a, b, d) ebunch ->
     exists d', In (a, b, d') (edges (add_edges_from g ebunch))) /\
  (forall a b d, In (a, b, d) (edges (add_edges_from g ebunch)) ->
     In (a, b) (map endpoints (edges g)) \/ In (a, b) (map endpoints ebunch)).
Proof.
  induction ebunch as [|[[u v] dd] es IH]; intros g.
  - cbn. split; [intros a b d H; now exists d|]. split; [easy|].
    intros a b d H. left. apply in_map_iff. now exists (a, b, d).
  - cbn [add_edges_from fold_left].
    destruct (IH (add_edge g (u, v, dd))) as (IHold & IHnew & IHback).
    assert (Hedges : edges (add_edge g (u, v, dd)) = set_edge (edges g) u v dd).
    { unfold add_edge. cbn.
      destruct (add_node_nodes g u) as (He1 & _).
      destruct (add_node_nodes (add_node g u) v) as (He2 & _).
      now rewrite He2, He1. }
    destruct (set_edge_has (edges g) u v dd) as [(d0 & Hd0) Hkeep].
    split; [|split].
    + intros a b d H. destruct (Hkeep _ _ _ H) as (d1 & Hd1).
      apply (IHold a b d1). now rewrite Hedges.
    + intros a b d [H|H].
      * injection H as <- <- <-. apply (IHold u v d0). now rewrite Hedges.
      * now apply (IHnew a b d).
    + intros a b d H. destruct (IHback _ _ _ H) as [Hk|Hk]; [|right; now right].
      rewrite Hedges in Hk. apply in_map_iff in Hk.
      destruct Hk as ([[a' b'] d'] & Heq & Hin). cbn in Heq.
      injection Heq as -> ->.
      destruct (set_edge_in _ _ _ _ _ _ _ Hin) as [[-> ->]|Hold].
      * right. now left.
      * left. apply in_map_iff. now exists (a, b, d').
Qed.

(** X13: the graph [__init__] builds from an edge list has no repeated
    node and at most one edge for a pair of nodes, its edges join nodes of
    the graph, every node lies on an edge, and the pairs it joins are those
    of the edge list. *)
Theorem init_builds_simple_graph (objects : nat -> Calculation)
    (edge_list : list edge) :
  simple (G (init objects edge_list)) /\
  (forall u v, In (u, v) (map endpoints edge_list) <->
               In (u, v) (map endpoints (edges (G (init objects edge_list))))).
Proof.
  split.
  - apply add_edges_from_simple. repeat split; try constructor; easy.
  - destruct (add_edges_from_covers edge_list empty) as (_ & Hnew & Hback).
    intros u v. split; intros H; apply in_map_iff in H;
      destruct H as ([[a b] d] & Heq & Hin); cbn in Heq; injection Heq as -> ->.
    + destruct (Hnew _ _ _ Hin) as (d' & Hd'). apply in_map_iff.
      now exists (u, v, d').
    + destruct (Hback _ _ _ Hin) as [[]|H]; assumption.
Qed.

End Construction.

Section Checks.

Import pandas nodes graphs notions.

Variable pd : kernel.

(** X10: [Multiply.compute] raises the [TypeError] of the input check as
    soon as one input is a table, while [Add.compute], which checks nothing,
    adds its constant to a single table; without inputs both raise the
    [TypeError] of [reduce]. *)
Theorem multiply_checks_add_does_not (const_float : float) :
  (forall args, existsb is_frame args = true ->
     nodes.compute pd (Multiply const_float) args =
       Raise (TypeError (InputIsNotOfType "Series"))) /\
  (forall d, nodes.compute pd (Add const_float) [PFrame d] =
             Ok (PFrame (frame_scalar op_add d const_float))) /\
  nodes.compute pd (Add const_float) [] =
    Raise (TypeError (Builtin "reduce() of empty iterable with no initial value")) /\
  nodes.compute pd (Multiply const_float) [] =
    Raise (TypeError (Builtin "reduce() of empty iterable with no initial value")).
Proof.
  split; [|repeat split].
  intros args Hex. cbn.
  unfold check_inputs, inputs.check_inputs, inputs.check_input_types. cbn.
  assert (H : inputs.check_zip args (flat_map (fun _ => [type_Series]) args) =
              Raise (TypeError (InputIsNotOfType "Series"))).
  { induction args as [|[s|d] args IH]; cbn in *; [discriminate| |reflexivity].
    now apply IH. }
  now rewrite H.
Qed.

End Checks.

Section FrequencySeeding.

Import pandas nodes graphs frequency_strings.

Variable set_list : list nat -> list nat.
Variable self : CompositeCalculation.

Lemma FreqStr_of_string_value (f : frequencies.FreqStr) :
  FreqStr_of_string (frequencies.value f) = Ok f.
Proof. now destruct f. Qed.

Lemma FreqStr_of_string_outcomes (x : string) :
  (exists f, x = frequencies.value f /\ FreqStr_of_string x = Ok f) \/
  ((forall f, x <> frequencies.value f) /\
   FreqStr_of_string x =
     Raise (ValueError (Builtin ("'" ++ x ++ "' is not a valid FreqStr")))).
Proof.
  unfold FreqStr_of_string.
  destruct (String.eqb_spec x "D") as [->|HD];
    [left; now exists frequencies.D|].
  destruct (String.eqb_spec x "M") as [->|HM];
    [left; now exists frequencies.M|].
  destruct (String.eqb_spec x "Q") as [->|HQ];
    [left; now exists frequencies.Q|].
  destruct (String.eqb_spec x "A") as [->|HA];
    [left; now exists frequencies.A|].
  right. split; [|reflexivity]. now intros [].
Qed.

Lemma seed_ext (V : Type) (first_call first_call' : nat -> result V)
    (ins : list nat) :
  (forall node, In node ins -> first_call node = first_call' node) ->
  forall pl : payload V,
    seed self first_call ins pl = seed self first_call' ins pl.
Proof.
  induction ins as [|n ins IH]; intros Hsame pl; [reflexivity|].
  cbn [seed]. rewrite <- (Hsame n (or_introl eq_refl)).
  destruct (first_call n) as [v|e]; [cbn [bind]|reflexivity].
  destruct (_update_successor_edge_information self pl n [v]) as [pl'|e];
    [cbn [bind]|reflexivity].
  apply IH. intros node Hin. apply Hsame. now right.
Qed.

(** With the values of members for strings, the first call at a node is the
    call with the members. *)
Lemma output_frequency_input_of_values
    (input_frequencies : string -> option frequencies.FreqStr) (node : nat) :
  output_frequency_input_of_strings self (values_of input_frequencies) node =
    output_frequency_input self input_frequencies node.
Proof.
  unfold output_frequency_input_of_strings, output_frequency_input, values_of.
  destruct (obj self node); cbn; try reflexivity;
    destruct (input_frequencies ts_name) as [f|]; cbn; try reflexivity;
    apply FreqStr_of_string_value.
Qed.

(** X15: seeding in [parse_frequencies], the frequencies given as strings,
    fails in three ways only, and each ends the call: with [AttributeError]
    at an input node that is neither an [Input] nor an [Output], which has no
    [ts_name]; with [KeyError] at an input node whose name has no frequency
    in the dictionary; and with the [ValueError] of [FreqStr] at an input node
    whose frequency is not the value of a member. When every frequency of the
    dictionary is the value of a member, the call is the call with the
    members. *)
Theorem parse_frequencies_seeding_failures
    (st : payload frequencies.FreqStr) :
  (forall (input_frequencies : string -> option string) (e : exception),
     seed self (output_frequency_input_of_strings self input_frequencies)
          (input_nodes self) (_clear_edge_info st) = Raise e ->
     parse_frequencies_of_strings set_list self st input_frequencies =
       Raise e /\
     exists node, In node (input_nodes self) /\
       ((e = AttributeError (Builtin "ts_name") /\
         forall name, obj self node <> Input name /\ obj self node <> Output name)
        \/
        (exists name, e = KeyError (Builtin name) /\
           ts_name_of (obj self node) = Ok name /\
           input_frequencies name = None)
        \/
        (exists name x,
           e = ValueError (Builtin ("'" ++ x ++ "' is not a valid FreqStr")) /\
           ts_name_of (obj self node) = Ok name /\
           input_frequencies name = Some x /\
           forall f, x <> frequencies.value f)))
  /\
  (forall (input_frequencies : string -> option string) (node : nat),
     In node (input_nodes self) ->
     (ts_name_of (obj self node) = Raise (AttributeError (Builtin "ts_name")) \/
      (exists name, ts_name_of (obj self node) = Ok name /\
                    input_frequencies name = None) \/
      (exists name x, ts_name_of (obj self node) = Ok name /\
                      input_frequencies name = Some x /\
                      forall f, x <> frequencies.value f)) ->
     exists e,
       parse_frequencies_of_strings set_list self st input_frequencies =
         Raise e)
  /\
  (forall input_frequencies : string -> option frequencies.FreqStr,
     parse_frequencies_of_strings set_list self st
       (values_of input_frequencies) =
     parse_frequencies set_list self st input_frequencies).
Proof.
  split; [|split].
  - intros input_frequencies e Hseed.
    split; [unfold parse_frequencies_of_strings; now rewrite Hseed|].
    destruct (seed_raise_source _ _ _ _ Hseed) as (node & Hin & Hnode).
    exists node. split; [assumption|].
    unfold output_frequency_input_of_strings in Hnode.
    assert (Hnamed : forall ts_name,
      ts_name_of (obj self node) = Ok ts_name ->
      (exists name, e = KeyError (Builtin name) /\
         ts_name_of (obj self node) = Ok name /\
         input_frequencies name = None)
      \/
      (exists name x,
         e = ValueError (Builtin ("'" ++ x ++ "' is not a valid FreqStr")) /\
         ts_name_of (obj self node) = Ok name /\
         input_frequencies name = Some x /\
         forall f, x <> frequencies.value f)).
    { intros ts_name Hts. rewrite Hts in Hnode. cbn [bind] in Hnode.
      destruct (input_frequencies ts_name) as [x|] eqn:Hf.
      - right. exists ts_name, x.
        destruct (FreqStr_of_string_outcomes x) as [(f & _ & Hok)|[Hno Hraise]];
          [congruence|].
        rewrite Hraise in Hnode. injection Hnode as <-. now repeat split.
      - left. exists ts_name. injection Hnode as <-. now repeat split. }
    destruct (obj self node) eqn:Hobj; cbn in Hnode;
      try (injection Hnode as <-; left; split; [reflexivity|];
           intros name; split; discriminate).
    + right. now apply (Hnamed ts_name).
    + right. now apply (Hnamed ts_name).
  - intros input_frequencies node Hin Hbad.
    assert (Hnode : exists e0,
              output_frequency_input_of_strings self input_frequencies node
                = Raise e0).
    { unfold output_frequency_input_of_strings.
      destruct Hbad as [->|[(name & -> & Hnone)|(name & x & -> & Hsome & Hno)]];
        cbn [bind].
      - now eexists.
      - rewrite Hnone. now eexists.
      - rewrite Hsome.
        destruct (FreqStr_of_string_outcomes x) as [(f & Hx & _)|[_ ->]];
          [now destruct (Hno f) | now eexists]. }
    destruct Hnode as (e0 & Hnode).
    destruct (@seed_raises self _
                (output_frequency_input_of_strings self input_frequencies)
                (input_nodes self) (_clear_edge_info st) node e0 Hin Hnode)
      as (e & Hseed).
    exists e. unfold parse_frequencies_of_strings. now rewrite Hseed.
  - intros input_frequencies.
    unfold parse_frequencies_of_strings, parse_frequencies.
    rewrite (@seed_ext _
               (output_frequency_input_of_strings self
                  (values_of input_frequencies))
               (output_frequency_input self input_frequencies)
               (input_nodes self)); [reflexivity|].
    intros node _. apply output_frequency_input_of_values.
Qed.

End FrequencySeeding.

(** ** The further properties at particular inputs *)

Section MoreInstances.

Import pandas nodes graphs examples course notions more_examples.

Lemma coarsest_finest_ignore_order_witness :
  Permutation [frequencies.M; frequencies.Q] [frequencies.Q; frequencies.M] /\
  frequencies.output_frequency frequencies.CoarsestFrequency
      [frequencies.M; frequencies.Q] =
    frequencies.output_frequency frequencies.CoarsestFrequency
      [frequencies.Q; frequencies.M] /\
  frequencies.output_frequency frequencies.FinestFrequency
      [frequencies.M; frequencies.Q] =
    frequencies.output_frequency frequencies.FinestFrequency
      [frequencies.Q; frequencies.M].
Proof.
  split; [apply perm_swap|].
  apply (@coarsest_finest_ignore_order [frequencies.M; frequencies.Q]
           [frequencies.Q; frequencies.M]).
  apply perm_swap.
Defined.

Lemma handler_output_source_witness :
  frequencies.output_frequency frequencies.CoarsestFrequency
      [frequencies.M; frequencies.Q] = Ok frequencies.Q /\
  In frequencies.Q [frequencies.M; frequencies.Q].
Proof.
  split; [reflexivity|].
  exact (@handler_output_source frequencies.CoarsestFrequency
           [frequencies.M; frequencies.Q] frequencies.Q eq_refl).
Defined.

Lemma sorted_predecessors_by_input_idx_witness :
  check_input_order (obj subtract_graph_BA 2) = true /\
  get_sorted_node_predecessors subtract_graph_BA 2 = Ok [0; 1] /\
  Permutation [0; 1] (predecessors (G subtract_graph_BA) 2).
Proof.
  split; [reflexivity|]. split; [reflexivity|].
  exact (proj1 (proj1 (@sorted_predecessors_by_input_idx subtract_graph_BA 2
                         eq_refl) [0; 1] eq_refl)).
Defined.

Lemma sorted_predecessors_ignore_edge_order_witness :
  check_input_order (objects_subtract 0 2) = true /\
  Permutation (edges (G subtract_graph_AB)) (edges (G subtract_graph_BA)) /\
  NoDup (map (fun item : nat * attrs => input_idx (snd item))
             (pred (G subtract_graph_AB) 2)) /\
  get_sorted_node_predecessors
      {| obj := objects_subtract 0; G := G subtract_graph_AB |} 2 =
    get_sorted_node_predecessors
      {| obj := objects_subtract 0; G := G subtract_graph_BA |} 2.
Proof.
  assert (Hperm : Permutation (edges (G subtract_graph_AB))
                              (edges (G subtract_graph_BA)))
    by apply perm_swap.
  assert (Hnd : NoDup (map (fun item : nat * attrs => input_idx (snd item))
                           (pred (G subtract_graph_AB) 2))).
  { cbn. constructor; [intros [H|[]]; discriminate H|].
    constructor; [intros []|constructor]. }
  split; [reflexivity|]. split; [exact Hperm|]. split; [exact Hnd|].
  exact (@sorted_predecessors_ignore_edge_order (objects_subtract 0)
           (G subtract_graph_AB) (G subtract_graph_BA) 2 eq_refl Hperm Hnd).
Defined.

Lemma missing_column_stops_at_seeding_witness :
  In 0 (input_nodes graph_in_out) /\
  obj graph_in_out 0 = Input "A" /\
  ~ In "A"%string (map fst (columns table_B_only)) /\
  exists e culprit,
    In culprit (input_nodes graph_in_out) /\
    compute insertion_order graph_in_out plain_kernel nothing_staged
            table_B_only = Raise e.
Proof.
  assert (Hin : In 0 (input_nodes graph_in_out)) by (now left).
  assert (Hmiss : ~ In "A"%string (map fst (columns table_B_only)))
    by (intros [H|[]]; discriminate H).
  split; [exact Hin|]. split; [reflexivity|]. split; [exact Hmiss|].
  destruct (@missing_column_stops_at_seeding insertion_order graph_in_out
              plain_kernel nothing_staged table_B_only 0 "A" Hin eq_refl Hmiss)
    as (e & culprit & Hc & _ & _ & Hcompute & _).
  exists e, culprit. split; [exact Hc | exact Hcompute].
Defined.

Lemma filter_projects_witness :
  NoDup (map fst (columns (table_AB values_1_2_3 values_10_20_30))) /\
  NoDup ["B"; "A"]%string /\
  nodes.compute plain_kernel (Filter ["B"; "A"]%string false)
      [PFrame (table_AB values_1_2_3 values_10_20_30)] =
    Ok (PFrame {| columns := [("B"%string, values_10_20_30);
                              ("A"%string, values_1_2_3)] |}) /\
  map fst [("B"%string, values_10_20_30); ("A"%string, values_1_2_3)] =
    ["B"; "A"]%string.
Proof.
  assert (Hcols : NoDup (map fst (columns (table_AB values_1_2_3
                                                   values_10_20_30)))).
  { cbn. constructor; [intros [H|[]]; discriminate H|].
    constructor; [intros []|constructor]. }
  assert (Hnames : NoDup ["B"; "A"]%string).
  { constructor; [intros [H|[]]; discriminate H|].
    constructor; [intros []|constructor]. }
  split; [exact Hcols|]. split; [exact Hnames|]. split; [reflexivity|].
  exact (proj1 (proj1 (proj2 (@filter_projects plain_kernel ["B"; "A"]%string
                                (table_AB values_1_2_3 values_10_20_30)
                                Hcols Hnames))
                      [("B"%string, values_10_20_30);
                       ("A"%string, values_1_2_3)] eq_refl)).
Defined.

Lemma two_outputs_not_one :
  length (filter (fun node => (length (succ (G graph_two_outputs) node) =? 0)%nat)
                 (nodes (G graph_two_outputs))) <> 1.
Proof. cbn. discriminate. Qed.

Lemma no_single_output_no_result_witness :
  length (filter (fun node => (length (succ (G graph_two_outputs) node) =? 0)%nat)
                 (nodes (G graph_two_outputs))) <> 1 /\
  output_node graph_two_outputs =
    Raise (ValueError (ExactlyOneOutput
      (filter (fun node => (length (succ (G graph_two_outputs) node) =? 0)%nat)
              (nodes (G graph_two_outputs))))).
Proof.
  split; [exact two_outputs_not_one|].
  exact (proj1 (@no_single_output_no_result insertion_order graph_two_outputs
                  plain_kernel nothing_staged nothing_staged table_A123
                  (every_input frequencies.M) two_outputs_not_one)).
Defined.

Lemma beyond_second_edge_starved : starved graph_fan_out beyond_second_edge.
Proof.
  intros [|[|[|[|node]]]] H; try discriminate H.
  - exists 0. split; [now left|]. right. cbn. discriminate.
  - exists 2. split; [right; now left|]. now left.
Qed.

Lemma second_successor_starves_witness :
  (forall l, Permutation (insertion_order l) l) /\
  output_node graph_fan_out = Ok 3 /\
  beyond_second_edge 3 = true /\
  starved graph_fan_out beyond_second_edge /\
  exists e,
    compute insertion_order graph_fan_out plain_kernel nothing_staged
            table_A123 = Raise e.
Proof.
  split; [exact insertion_order_perm|]. split; [reflexivity|].
  split; [reflexivity|]. split; [exact beyond_second_edge_starved|].
  exact (proj1 (proj1 (@second_successor_starves insertion_order
                         insertion_order_perm graph_fan_out plain_kernel
                         beyond_second_edge 3 eq_refl eq_refl
                         beyond_second_edge_starved)
                      nothing_staged table_A123)).
Defined.

Lemma pass_returns_output_node_result_witness :
  (forall l, Permutation (insertion_order l) l) /\
  compute insertion_order graph_in_out plain_kernel nothing_staged table_A123 =
    Ok (PyList [PSeries {| name := Some "X"%string; values := values_1_2_3 |}]) /\
  exists final args v,
    output_node graph_in_out = Ok final /\
    nodes.compute plain_kernel (obj graph_in_out final) args = Ok v /\
    PyList [PSeries {| name := Some "X"%string; values := values_1_2_3 |}] =
      PyList [v].
Proof.
  assert (H : compute insertion_order graph_in_out plain_kernel nothing_staged
                      table_A123 =
              Ok (PyList [PSeries {| name := Some "X"%string;
                                     values := values_1_2_3 |}]))
    by reflexivity.
  split; [exact insertion_order_perm|]. split; [exact H|].
  destruct (proj1 (@pass_returns_output_node_result insertion_order
                     insertion_order_perm graph_in_out plain_kernel)
                  nothing_staged table_A123 _ H)
    as (final & args & v & Hout & Hv & Hr & _).
  exists final, args, v. split; [exact Hout|]. split; [exact Hv | exact Hr].
Defined.

Lemma returning_pass_uses_every_iteration_witness :
  (forall l, Permutation (insertion_order l) l) /\
  _traverse_graph insertion_order graph_in_out (nodes.compute plain_kernel)
                  staged_A123 =
    Ok (PyList [PSeries {| name := Some "X"%string; values := values_1_2_3 |}]) /\
  exists final cs st,
    output_node graph_in_out = Ok final /\
    _unvisited_nodes_with_all_inputs insertion_order graph_in_out staged_A123 =
      Ok cs /\
    while_loop insertion_order graph_in_out (nodes.compute plain_kernel) final
      max_iter cs
      {| edge_info := staged_A123; calculation_results := None;
         final_node_reached := false |} = (Ok st, 0) /\
    final_node_reached st = true.
Proof.
  assert (H : _traverse_graph insertion_order graph_in_out
                (nodes.compute plain_kernel) staged_A123 =
              Ok (PyList [PSeries {| name := Some "X"%string;
                                     values := values_1_2_3 |}]))
    by reflexivity.
  split; [exact insertion_order_perm|]. split; [exact H|].
  exact (@returning_pass_uses_every_iteration insertion_order
           insertion_order_perm graph_in_out _ (nodes.compute plain_kernel)
           staged_A123 _ H).
Defined.

Lemma filter_collapse_is_input_witness :
  NoDup (map fst (columns table_A123)) /\
  exists vs,
    In ("A"%string, vs) (columns table_A123) /\
    nodes.compute plain_kernel (Filter ["A"%string] true) [PFrame table_A123] =
      Ok (PSeries {| name := Some "A"%string; values := vs |}) /\
    nodes.compute plain_kernel (Input "A") [PFrame table_A123] =
      Ok (PSeries {| name := Some "A"%string; values := vs |}).
Proof.
  assert (Hcols : NoDup (map fst (columns table_A123))).
  { cbn. constructor; [intros []|constructor]. }
  split; [exact Hcols|].
  exact (proj1 (@filter_collapse_is_input plain_kernel "A"%string table_A123
                  Hcols)
               (or_introl eq_refl)).
Defined.


End MoreInstances.
